(** * pyyaml-include: the [!include] constructor of [yamlinclude/constructor.py]

    A shallow embedding of [YamlIncludeConstructor] and of the parts of the
    Python runtime its behaviour depends on, followed by the properties of
    the include resolution that are checked against it.

    Conventions of the embedding.
    - A Python [str] is a Rocq [string]; its characters are the code points
      below 256.
    - A Python exception is a constructor of [exn]; a call that may raise
      returns a [result].  Code that also writes to [sys.stderr] or to the
      resolver objects runs in the monad [M] over [State].
    - The collaborators the module only calls (the process environment, the
      file system, [glob], the YAML parser) are the fields of a [World].
      They are functions: the world does not change while one include is
      resolved, and what a collaborator does besides returning or raising
      (the parser may itself meet further [!include] tags) is not seen.
    - The functions of the [re] module are embedded for CPython 3.7 and
      later, on the part of the pattern syntax described in [Module re];
      outside of it [re.sub] is a collaborator.
    - The paths are those of a POSIX system. *)

From Stdlib Require Import ZArith NArith String Ascii List DecimalString Bool Lia.
From stdpp Require Import base option list strings gmap.

Open Scope string_scope.

(** ** Python values, exceptions and built-ins *)

Module Py.

(** The exception classes that occur.  [OtherException] stands for a class
    that is none of the listed ones nor a subclass of them. *)
Inductive exn : Type :=
  | KeyError
  | TypeError
  | ValueError
  | OverflowError
  | OSError
  | UnicodeError
  | re_error
  | YAMLError
  | OtherException (name : string).

Definition is_KeyError (e : exn) : bool :=
  match e with KeyError => true | _ => false end.

Inductive result (A : Type) : Type :=
  | Ok (a : A)
  | Raise (e : exn).
Arguments Ok {A} a.
Arguments Raise {A} e.

Definition rbind {A B} (r : result A) (f : A -> result B) : result B :=
  match r with
  | Ok a => f a
  | Raise e => Raise e
  end.

(** The values a YAML document constructs (floats, dates and binary data are
    left out) and that reach the constructor as arguments.  A [VDict] holds
    the items of a [dict] in insertion order; its keys are pairwise
    different. *)
#[warnings="-register-all"]
Inductive value : Type :=
  | VNone
  | VBool (b : bool)
  | VInt (z : Z)
  | VStr (s : string)
  | VList (l : list value)
  | VDict (items : list (value * value)).

(** [bool(v)] *)
Definition truthy (v : value) : bool :=
  match v with
  | VNone => false
  | VBool b => b
  | VInt z => negb (z =? 0)%Z
  | VStr s => negb (String.eqb s "")
  | VList l => match l with [] => false | _ => true end
  | VDict items => match items with [] => false | _ => true end
  end.

(** [bool(o)] for an attribute that is [None] or a [str] *)
Definition truthy_opt (o : option string) : bool :=
  match o with
  | None => false
  | Some s => negb (String.eqb s "")
  end.

(** [d[key]] on the items of a dict, for a [str] key: only a [str] key of the
    dict can be equal to it. *)
Fixpoint dict_get (items : list (value * value)) (key : string) : option value :=
  match items with
  | [] => None
  | (VStr k, v) :: items' => if String.eqb k key then Some v else dict_get items' key
  | _ :: items' => dict_get items' key
  end.

(** [v[key]] for a [str] key: a dict is looked up, every other value
    of the model rejects a [str] subscript. *)
Definition getitem (v : value) (key : string) : result value :=
  match v with
  | VDict items =>
      match dict_get items key with
      | Some x => Ok x
      | None => Raise KeyError
      end
  | _ => Raise TypeError
  end.

Definition squote : ascii := "'"%char.
Definition dquote : ascii := ascii_of_nat 34.
Definition backslash : ascii := "\"%char.
Definition newline : ascii := "010"%char.

Fixpoint contains_char (c : ascii) (s : string) : bool :=
  match s with
  | EmptyString => false
  | String a s' => Ascii.eqb a c || contains_char c s'
  end.

Definition hex_digit (n : N) : ascii :=
  if (n <? 10)%N then ascii_of_N (48 + n) else ascii_of_N (87 + n).

(** [str.isprintable] on one code point below 256 *)
Definition printable (c : ascii) : bool :=
  let n := N_of_ascii c in
  ((32 <=? n) && (n <? 127) || (161 <=? n) && negb (n =? 173))%N.

Definition repr_char (quote c : ascii) : string :=
  let n := N_of_ascii c in
  if Ascii.eqb c backslash then "\\"
  else if Ascii.eqb c quote then String backslash (String c "")
  else if (n =? 9)%N then "\t"
  else if (n =? 10)%N then "\n"
  else if (n =? 13)%N then "\r"
  else if printable c then String c ""
  else String backslash (String "x" (String (hex_digit (n / 16)) (String (hex_digit (n mod 16)) ""))).

Fixpoint repr_chars (quote : ascii) (s : string) : string :=
  match s with
  | EmptyString => ""
  | String c s' => repr_char quote c +:+ repr_chars quote s'
  end.

(** [repr(s)] for a [str] *)
Definition repr_str (s : string) : string :=
  let quote :=
    if contains_char squote s && negb (contains_char dquote s) then dquote else squote in
  String quote (repr_chars quote s +:+ String quote "").

(** [", ".join(l)] *)
Fixpoint join_comma (l : list string) : string :=
  match l with
  | [] => ""
  | [x] => x
  | x :: l' => x +:+ ", " +:+ join_comma l'
  end.

(** [repr(v)] *)
Fixpoint repr (v : value) : string :=
  match v with
  | VNone => "None"
  | VBool true => "True"
  | VBool false => "False"
  | VInt z => NilZero.string_of_int (Z.to_int z)
  | VStr s => repr_str s
  | VList l => "[" +:+ join_comma (List.map repr l) +:+ "]"
  | VDict items =>
      "{" +:+ join_comma (List.map (fun kv => repr (fst kv) +:+ ": " +:+ repr (snd kv)) items) +:+ "}"
  end.

(** [str(v)] *)
Definition str (v : value) : string :=
  match v with
  | VStr s => s
  | _ => repr v
  end.

(** [s.split(sep)] for a separator of one character *)
Fixpoint split_aux (sep : ascii) (s : string) (cur : string) : list string :=
  match s with
  | EmptyString => [String.rev cur]
  | String c s' =>
      if Ascii.eqb c sep then String.rev cur :: split_aux sep s' ""
      else split_aux sep s' (String c cur)
  end.

Definition str_split (sep : ascii) (s : string) : list string := split_aux sep s "".

(** [s.startswith(p)] *)
Definition startswith (p s : string) : bool := String.prefix p s.

(** [s.endswith(p)]: [s] is [p], or what follows its first character ends
    with [p]. *)
Fixpoint endswith (p s : string) : bool :=
  String.eqb s p
  || match s with
     | EmptyString => false
     | String _ s' => endswith p s'
     end.

(** [c.isspace()] on one code point below 256 *)
Definition isspace (c : ascii) : bool :=
  let n := N_of_ascii c in
  ((9 <=? n) && (n <=? 13) || (28 <=? n) && (n <=? 32) || (n =? 133) || (n =? 160))%N.

Fixpoint lstrip (s : string) : string :=
  match s with
  | EmptyString => ""
  | String c s' => if isspace c then lstrip s' else s
  end.

(** [s.strip()] *)
Definition strip (s : string) : string :=
  String.rev (lstrip (String.rev (lstrip s))).

(** [c.lower()] on one code point below 256 *)
Definition lower_char (c : ascii) : ascii :=
  let n := N_of_ascii c in
  if ((65 <=? n) && (n <=? 90) || (192 <=? n) && (n <=? 222) && negb (n =? 215))%N
  then ascii_of_N (n + 32) else c.

(** [s.lower()] *)
Fixpoint lower (s : string) : string :=
  match s with
  | EmptyString => ""
  | String c s' => String (lower_char c) (lower s')
  end.

End Py.
Export Py.

(** ** The [re] module

    Patterns are parsed as [sre_parse] does and matched as the backtracking
    engine of [_sre] does.  The syntax covered: literal characters, [.],
    [^], [$], alternation [|], capturing groups, character sets with ranges
    and negation, the quantifiers [*], [+], [?] and [{m,n}] (greedy and,
    with a following [?], lazy), and a backslash before a character that is
    no ASCII letter or digit.  A pattern with [(?...)], with a backslash
    before an ASCII letter or digit, or with a quantifier followed by [+]
    (whose meaning depends on the version of Python) is reported as
    [Unsupported].  No flag is set: [.] does not match a line break, [^]
    matches at the start of the text only and [$] at its end or before a
    final line break. *)

Module re.

Inductive regex : Type :=
  | Empty
  | Literal (c : ascii)
  | AnyChar
  | CharSet (negate : bool) (ranges : list (ascii * ascii))
  | AtBeginning
  | AtEnd
  | Seq (r1 r2 : regex)
  | Branch (r1 r2 : regex)
  | Subpattern (group : nat) (r : regex)
  | MaxRepeat (lo : N) (hi : option N) (r : regex)
  | MinRepeat (lo : N) (hi : option N) (r : regex).

(** *** Parsing *)

Inductive parsed (A : Type) : Type :=
  | Parsed (a : A)
  | ParseError (e : exn)
  | Unsupported.
Arguments Parsed {A} a.
Arguments ParseError {A} e.
Arguments Unsupported {A}.

Definition is_digit (c : ascii) : bool :=
  let n := N_of_ascii c in ((48 <=? n) && (n <=? 57))%N.

Definition is_ascii_letter (c : ascii) : bool :=
  let n := N_of_ascii c in
  ((65 <=? n) && (n <=? 90) || (97 <=? n) && (n <=? 122))%N.

(** [MAXREPEAT] of a 64-bit build *)
Definition MAXREPEAT : N := 4294967295.

(** The digits at the head of [s], as a number ([acc] when there is none),
    and what follows them. *)
Fixpoint read_digits (s : string) (acc : option N) : option N * string :=
  match s with
  | String c s' =>
      if is_digit c
      then read_digits s' (Some (10 * default 0%N acc + (N_of_ascii c - 48))%N)
      else (acc, s)
  | EmptyString => (acc, s)
  end.

(** What follows a [{]: the bounds [lo], [hi] of a quantifier and the text
    after its [}], or [None] when the brace opens no quantifier and is a
    literal character. *)
Definition read_bounds (s : string) : option (option N * option N * string) :=
  match s with
  | String "}" _ => None
  | _ =>
      let '(lo, s1) := read_digits s None in
      let '(hi, s2) :=
        match s1 with
        | String "," s1' => read_digits s1' None
        | _ => (lo, s1)
        end in
      match s2 with
      | String "}" s3 => Some (lo, hi, s3)
      | _ => None
      end
  end.

(** One member of a character set: a character, or a backslash and the
    character it escapes. *)
Definition read_set_item (s : string) : parsed (ascii * string) :=
  match s with
  | EmptyString => ParseError re_error
  | String c s1 =>
      if Ascii.eqb c backslash then
        match s1 with
        | EmptyString => ParseError re_error
        | String e s2 =>
            if is_ascii_letter e || is_digit e then Unsupported else Parsed (e, s2)
        end
      else Parsed (c, s1)
  end.

(** The members of a character set up to its closing bracket. *)
Fixpoint parse_set (fuel : nat) (s : string) (acc : list (ascii * ascii))
  : parsed (list (ascii * ascii) * string) :=
  match fuel with
  | O => Unsupported
  | S fuel' =>
      match s with
      | EmptyString => ParseError re_error
      | String c s0 =>
          if Ascii.eqb c "]" && negb (match acc with [] => true | _ => false end)
          then Parsed (rev acc, s0)
          else
            match read_set_item s with
            | Parsed (c1, s1) =>
                match s1 with
                | String "-" s2 =>
                    match s2 with
                    | EmptyString => ParseError re_error
                    | String "]" s3 => Parsed (rev (("-"%char, "-"%char) :: (c1, c1) :: acc), s3)
                    | _ =>
                        match read_set_item s2 with
                        | Parsed (c2, s3) =>
                            if (N_of_ascii c2 <? N_of_ascii c1)%N then ParseError re_error
                            else parse_set fuel' s3 ((c1, c2) :: acc)
                        | ParseError e => ParseError e
                        | Unsupported => Unsupported
                        end
                    end
                | _ => parse_set fuel' s1 ((c1, c1) :: acc)
                end
            | ParseError e => ParseError e
            | Unsupported => Unsupported
            end
      end
  end.

Definition is_at (r : regex) : bool :=
  match r with AtBeginning | AtEnd => true | _ => false end.

Definition is_repeat (r : regex) : bool :=
  match r with MaxRepeat _ _ _ | MinRepeat _ _ _ => true | _ => false end.

(** The items of a sequence, last one first, as one pattern. *)
Fixpoint seq_of (items : list regex) (tail : regex) : regex :=
  match items with
  | [] => tail
  | r :: items' => seq_of items' (match tail with Empty => r | _ => Seq r tail end)
  end.

(** The continuation of [_parse] once a quantifier with bounds [lo], [hi] was
    read: the bounds are checked, then the item the quantifier applies to. *)
Definition quantify (parse_rest : string -> list regex -> parsed (list regex * string * nat))
    (lo hi : option N) (s : string) (acc : list regex)
  : parsed (list regex * string * nat) :=
  let min := default 0%N lo in
  if (MAXREPEAT <=? min)%N then ParseError OverflowError
  else if match hi with Some h => (MAXREPEAT <=? h)%N | None => false end
  then ParseError OverflowError
  else if match hi with Some h => (h <? min)%N | None => false end
  then ParseError re_error
  else
    match acc with
    | [] => ParseError re_error
    | item :: acc' =>
        if is_at item then ParseError re_error
        else if is_repeat item then ParseError re_error
        else
          match s with
          | String "?" s' => parse_rest s' (MinRepeat min hi item :: acc')
          | String "+" _ => Unsupported
          | _ => parse_rest s (MaxRepeat min hi item :: acc')
          end
    end.

(** [_parse]: the items of one alternative, up to a [|], a [)] or the end of
    the pattern; [g] counts the groups opened so far and [acc] holds the
    items read, last one first.  [_parse_sub]: the alternatives of a pattern
    or of a group. *)
Fixpoint _parse (fuel : nat) (s : string) (g : nat) (acc : list regex)
  : parsed (list regex * string * nat) :=
  match fuel with
  | O => Unsupported
  | S fuel' =>
      match s with
      | EmptyString => Parsed (acc, s, g)
      | String "|" _ => Parsed (acc, s, g)
      | String ")" _ => Parsed (acc, s, g)
      | String "\" s1 =>
          match s1 with
          | EmptyString => ParseError re_error
          | String e s2 =>
              if is_ascii_letter e || is_digit e then Unsupported
              else _parse fuel' s2 g (Literal e :: acc)
          end
      | String "[" s1 =>
          let '(negate, s2) :=
            match s1 with
            | String "^" s1' => (true, s1')
            | _ => (false, s1)
            end in
          match parse_set (String.length s2 + 1) s2 [] with
          | Parsed (ranges, s3) => _parse fuel' s3 g (CharSet negate ranges :: acc)
          | ParseError e => ParseError e
          | Unsupported => Unsupported
          end
      | String "?" s1 => quantify (fun s' acc' => _parse fuel' s' g acc') None (Some 1%N) s1 acc
      | String "*" s1 => quantify (fun s' acc' => _parse fuel' s' g acc') None None s1 acc
      | String "+" s1 => quantify (fun s' acc' => _parse fuel' s' g acc') (Some 1%N) None s1 acc
      | String "{" s1 =>
          match read_bounds s1 with
          | Some (lo, hi, s2) => quantify (fun s' acc' => _parse fuel' s' g acc') lo hi s2 acc
          | None => _parse fuel' s1 g (Literal "{" :: acc)
          end
      | String "." s1 => _parse fuel' s1 g (AnyChar :: acc)
      | String "^" s1 => _parse fuel' s1 g (AtBeginning :: acc)
      | String "$" s1 => _parse fuel' s1 g (AtEnd :: acc)
      | String "(" s1 =>
          match s1 with
          | String "?" _ => Unsupported
          | _ =>
              match _parse_sub fuel' s1 (S g) with
              | Parsed (r, String ")" s2, g') => _parse fuel' s2 g' (Subpattern (S g) r :: acc)
              | Parsed _ => ParseError re_error
              | ParseError e => ParseError e
              | Unsupported => Unsupported
              end
          end
      | String c s1 => _parse fuel' s1 g (Literal c :: acc)
      end
  end
with _parse_sub (fuel : nat) (s : string) (g : nat) : parsed (regex * string * nat) :=
  match fuel with
  | O => Unsupported
  | S fuel' =>
      match _parse fuel' s g [] with
      | Parsed (items, String "|" s1, g1) =>
          match _parse_sub fuel' s1 g1 with
          | Parsed (r2, s2, g2) => Parsed (Branch (seq_of items Empty) r2, s2, g2)
          | ParseError e => ParseError e
          | Unsupported => Unsupported
          end
      | Parsed (items, s1, g1) => Parsed (seq_of items Empty, s1, g1)
      | ParseError e => ParseError e
      | Unsupported => Unsupported
      end
  end.

(** [sre_parse.parse]: the whole pattern; a [)] that closes no group is an
    error. *)
Definition parse (pattern : string) : parsed regex :=
  match _parse_sub (2 * String.length pattern + 2) pattern 0 with
  | Parsed (r, EmptyString, _) => Parsed r
  | Parsed _ => ParseError re_error
  | ParseError e => ParseError e
  | Unsupported => Unsupported
  end.

(** [re.compile] of a pattern that is a constant of the program. *)
Definition compile (pattern : string) : regex :=
  match parse pattern with
  | Parsed r => r
  | _ => Empty
  end.

(** *** Matching *)

(** The text of the groups that matched, the most recent first. *)
Definition marks : Type := list (nat * string).

Fixpoint in_ranges (c : ascii) (ranges : list (ascii * ascii)) : bool :=
  match ranges with
  | [] => false
  | (lo, hi) :: ranges' =>
      (N_of_ascii lo <=? N_of_ascii c)%N && (N_of_ascii c <=? N_of_ascii hi)%N
      || in_ranges c ranges'
  end.

(** [$]: at the end of the text, or before a line break that ends it. *)
Definition at_end (rest : string) : bool :=
  match rest with
  | EmptyString => true
  | String c EmptyString => Ascii.eqb c newline
  | _ => false
  end.

Definition below (count : N) (hi : option N) : bool :=
  match hi with
  | Some h => (count <? h)%N
  | None => true
  end.

Definition same_pos (last : option nat) (pos : nat) : bool :=
  match last with
  | Some p => Nat.eqb p pos
  | None => false
  end.

Section Match.

Context {R : Type}.

(** What is done once a match is found: the offset reached, the text left
    and the marks are handed on, and [None] asks for the next way to
    match. *)
Definition continuation : Type := nat -> string -> marks -> option R.

(** A greedy quantifier with the bounds [lo] and [hi]: [count] repetitions
    are done and the last one started at offset [last].  Below [lo] the body
    must match again.  From [lo] on, and below [hi], the body is tried
    again first unless the repetition before started at this very offset,
    and the rest of the pattern is tried when that fails. *)
Fixpoint max_until (body : nat -> string -> marks -> continuation -> option R)
    (lo : N) (hi : option N) (k : continuation)
    (fuel : nat) (count : N) (last : option nat)
    (pos : nat) (rest : string) (mk : marks) {struct fuel} : option R :=
  match fuel with
  | O => None
  | S fuel' =>
      if (count <? lo)%N then
        body pos rest mk (max_until body lo hi k fuel' (count + 1)%N last)
      else if below count hi && negb (same_pos last pos) then
        match body pos rest mk (max_until body lo hi k fuel' (count + 1)%N (Some pos)) with
        | Some x => Some x
        | None => k pos rest mk
        end
      else k pos rest mk
  end.

(** A lazy quantifier: from [lo] on the rest of the pattern is tried first,
    and the body again when that fails. *)
Fixpoint min_until (body : nat -> string -> marks -> continuation -> option R)
    (lo : N) (hi : option N) (k : continuation)
    (fuel : nat) (count : N) (last : option nat)
    (pos : nat) (rest : string) (mk : marks) {struct fuel} : option R :=
  match fuel with
  | O => None
  | S fuel' =>
      if (count <? lo)%N then
        body pos rest mk (min_until body lo hi k fuel' (count + 1)%N last)
      else
        match k pos rest mk with
        | Some x => Some x
        | None =>
            if below count hi && negb (same_pos last pos) then
              body pos rest mk (min_until body lo hi k fuel' (count + 1)%N (Some pos))
            else None
        end
  end.

(** [sre_match r pos rest mk k]: match [r] against [rest], the text from
    offset [pos] on, and hand the offset reached, the text left and the
    marks to [k]; when [k] fails the next way of matching [r] is tried, in
    the order of the engine: the first alternative first, a greedy
    quantifier as often as possible first, a lazy one as rarely as possible
    first.  A quantifier needs no more repetitions than its lower bound and
    the characters left, and two more. *)
Fixpoint sre_match (r : regex) (pos : nat) (rest : string) (mk : marks)
    (k : continuation) {struct r} : option R :=
  match r with
  | Empty => k pos rest mk
  | Literal c =>
      match rest with
      | String a rest' => if Ascii.eqb a c then k (S pos) rest' mk else None
      | EmptyString => None
      end
  | AnyChar =>
      match rest with
      | String a rest' => if Ascii.eqb a newline then None else k (S pos) rest' mk
      | EmptyString => None
      end
  | CharSet negate ranges =>
      match rest with
      | String a rest' => if xorb negate (in_ranges a ranges) then k (S pos) rest' mk else None
      | EmptyString => None
      end
  | AtBeginning => if Nat.eqb pos 0 then k pos rest mk else None
  | AtEnd => if at_end rest then k pos rest mk else None
  | Seq r1 r2 => sre_match r1 pos rest mk (fun p s m => sre_match r2 p s m k)
  | Branch r1 r2 =>
      match sre_match r1 pos rest mk k with
      | Some x => Some x
      | None => sre_match r2 pos rest mk k
      end
  | Subpattern g r1 =>
      sre_match r1 pos rest mk (fun p s m => k p s ((g, String.substring 0 (p - pos) rest) :: m))
  | MaxRepeat lo hi r1 =>
      max_until (sre_match r1) lo hi k
        (N.to_nat lo + String.length rest + 2) 0%N None pos rest mk
  | MinRepeat lo hi r1 =>
      min_until (sre_match r1) lo hi k
        (N.to_nat lo + String.length rest + 2) 0%N None pos rest mk
  end.

End Match.

(** A match of the pattern that starts at offset [pos]: the offset where it
    ends, the text after it and the marks.  With [must_advance] an empty
    match is refused. *)
Definition match_at (r : regex) (pos : nat) (rest : string) (must_advance : bool)
  : option (nat * string * marks) :=
  sre_match r pos rest []
    (fun p s m => if must_advance && Nat.eqb p pos then None else Some (p, s, m)).

(** [sre_search]: the first offset from [pos] on where the pattern matches,
    the text from there on, and the match.  [must_advance] holds for the
    first offset only. *)
Fixpoint search (r : regex) (pos : nat) (rest : string) (must_advance : bool)
  : option (nat * string * (nat * string * marks)) :=
  match match_at r pos rest must_advance with
  | Some found => Some (pos, rest, found)
  | None =>
      match rest with
      | EmptyString => None
      | String _ rest' => search r (S pos) rest' false
      end
  end.

Fixpoint group_text (g : nat) (mk : marks) : string :=
  match mk with
  | [] => ""
  | (g', s) :: mk' => if Nat.eqb g' g then s else group_text g mk'
  end.

(** [re.match(pattern, s)] as a truth value *)
Definition re_match (r : regex) (s : string) : bool :=
  match match_at r 0 s false with
  | Some _ => true
  | None => false
  end.

(** [pattern.findall(s)] for a pattern with exactly one group: the text of
    the group in every match, from left to right.  After an empty match the
    next one must not be empty at the same offset. *)
Fixpoint findall_from (fuel : nat) (r : regex) (pos : nat) (rest : string)
    (must_advance : bool) : list string :=
  match fuel with
  | O => []
  | S fuel' =>
      match search r pos rest must_advance with
      | None => []
      | Some (b, _, (e, rest_e, mk)) =>
          group_text 1 mk :: findall_from fuel' r e rest_e (Nat.eqb e b)
      end
  end.

Definition findall (r : regex) (s : string) : list string :=
  findall_from (2 * String.length s + 2) r 0 s false.

(** [re.sub(pattern, repl, s)] for a replacement without backslash, which is
    inserted as it is: every match, from left to right, is replaced. *)
Fixpoint sub_from (fuel : nat) (r : regex) (repl : string) (pos : nat) (rest : string)
    (must_advance : bool) : string :=
  match fuel with
  | O => rest
  | S fuel' =>
      match search r pos rest must_advance with
      | None => rest
      | Some (b, _, (e, rest_e, _)) =>
          String.substring 0 (b - pos) rest +:+ repl
            +:+ sub_from fuel' r repl e rest_e (Nat.eqb e b)
      end
  end.

Definition sub (r : regex) (repl : string) (s : string) : string :=
  sub_from (2 * String.length s + 2) r repl 0 s false.

End re.

(** ** The collaborators: PyYAML, the environment and the file system *)

(** The loader classes of PyYAML, and any other class derived from them. *)
Inductive LoaderClass : Type :=
  | yaml_BaseLoader
  | yaml_SafeLoader
  | yaml_FullLoader
  | yaml_Loader
  | yaml_UnsafeLoader
  | CustomLoader (name : string).

(** A loader instance; [loader_type] is [type(loader)]. *)
Record Loader : Type := { loader_type : LoaderClass }.

(** [yaml.nodes]: the three kinds of node the composer builds, and
    [OtherNode] for a [Node] that is an instance of none of them. *)
#[warnings="-register-all"]
Inductive Node : Type :=
  | ScalarNode (tag : string) (value : string)
  | SequenceNode (tag : string) (value : list Node)
  | MappingNode (tag : string) (value : list (Node * Node))
  | OtherNode (tag : string).

(** A text file opened for reading; [file_read] is what [read()] gives, an
    error when the content cannot be decoded. *)
Record File : Type := { file_read : result string }.

(** What [yaml.load] is given to read. *)
Inductive stream : Type :=
  | TextStream (text : string)
  | FileStream (file : File).

Record World : Type := {
  (** [os.environ] *)
  environ : gmap string string;
  (** [sys.version_info[0]] and [sys.version_info[1]] *)
  version_info : N * N;
  (** the module's name [FullLoader]: the class, or [None] when PyYAML has none *)
  FullLoader : option LoaderClass;
  (** [yaml.load(stream, Loader)] *)
  yaml_load : stream -> option LoaderClass -> result value;
  (** [loader.construct_sequence(node)] on the children of the node *)
  construct_sequence : Loader -> list Node -> result (list value);
  (** [loader.construct_mapping(node)] on the pairs of the node *)
  construct_mapping : Loader -> list (Node * Node) -> result (list (value * value));
  (** [glob.iglob(pathname, recursive=...)], in the order it yields *)
  iglob : string -> bool -> list string;
  (** [os.path.isfile] *)
  isfile : string -> bool;
  (** [io.open(path, encoding=...)] for a [str] encoding *)
  io_open : string -> string -> result File;
  (** [re.sub(pattern, repl, s)] where the pattern or the replacement is
      outside the part of [re] that is embedded *)
  re_sub_other : string -> string -> string -> result string
}.

(** [os.environ[name]] *)
Definition environ_getitem (w : World) (name : string) : result string :=
  match environ w !! name with
  | Some v => Ok v
  | None => Raise KeyError
  end.

(** [os.path.join(a, b)] of [posixpath] *)
Definition os_path_join (a : string) (b : value) : result value :=
  match b with
  | VStr b =>
      if startswith "/" b then Ok (VStr b)
      else if String.eqb a "" || endswith "/" a then Ok (VStr (a +:+ b))
      else Ok (VStr (a +:+ "/" +:+ b))
  | _ => Raise TypeError
  end.

(** [io.open(path, encoding=encoding)]: the encoding must be a [str]. *)
Definition open_file (w : World) (path : string) (encoding : value) : result File :=
  match encoding with
  | VStr e => io_open w path e
  | _ => Raise TypeError
  end.

(** [re.sub(pattern, repl, s)]: the pattern is compiled first. *)
Definition re_sub (w : World) (pattern repl s : string) : result string :=
  match re.parse pattern with
  | re.Parsed r =>
      if contains_char backslash repl then re_sub_other w pattern repl s
      else Ok (re.sub r repl s)
  | re.ParseError e => Raise e
  | re.Unsupported => re_sub_other w pattern repl s
  end.

(** [pattern.findall(s)]: the argument must be a [str]. *)
Definition re_findall (r : re.regex) (s : value) : result (list string) :=
  match s with
  | VStr s => Ok (re.findall r s)
  | _ => Raise TypeError
  end.

(** ** The state of the program and its monad *)

(** The attributes of one [YamlIncludeConstructor] object. *)
Record YamlIncludeConstructor : Type := {
  _base_dir : option string;
  _encoding : option string
}.

(** The objects created so far (an object is referred to by its index), the
    calls of [yaml.add_constructor] made so far (the loader class when one was
    given, the tag, the constructor object), the last one first, and the
    lines written to [sys.stderr]. *)
Record State : Type := {
  objects : list YamlIncludeConstructor;
  yaml_constructors : list (option LoaderClass * string * nat);
  stderr : list string
}.

Definition M (A : Type) : Type := State -> result A * State.

Definition ret {A} (a : A) : M A := fun st => (Ok a, st).

Definition raise {A} (e : exn) : M A := fun st => (Raise e, st).

Definition bind {A B} (m : M A) (f : A -> M B) : M B :=
  fun st =>
    match m st with
    | (Ok a, st') => f a st'
    | (Raise e, st') => (Raise e, st')
    end.

Definition lift {A} (r : result A) : M A := fun st => (r, st).

Notation "x <- m ;; k" := (bind m (fun x => k))
  (at level 62, m at next level, right associativity).
Notation "m ;;; k" := (bind m (fun _ => k))
  (at level 62, right associativity).
Notation "x <~ r ;; k" := (rbind r (fun x => k))
  (at level 62, r at next level, right associativity).

(** [try: m  except KeyError: handler] *)
Definition try_except_KeyError {A} (m : M A) (handler : M A) : M A :=
  fun st =>
    match m st with
    | (Raise e, st') => if is_KeyError e then handler st' else (Raise e, st')
    | ok => ok
    end.

(** [print(line, file=sys.stderr)] *)
Definition print_stderr (line : string) : M unit :=
  fun st =>
    (Ok tt, {| objects := objects st;
               yaml_constructors := yaml_constructors st;
               stderr := stderr st ++ [line] |}).

(** [for x in l: s = body(s, x)] *)
Fixpoint for_each {A S} (l : list A) (body : S -> A -> M S) (s : S) : M S :=
  match l with
  | [] => ret s
  | x :: l' => s' <- body s x ;; for_each l' body s'
  end.

Fixpoint rfor_each {A S} (l : list A) (body : S -> A -> result S) (s : S) : result S :=
  match l with
  | [] => Ok s
  | x :: l' => s' <~ body s x ;; rfor_each l' body s'
  end.

(** [self.<field>].  A reference that [__init__] returned always names an
    object; for any other number an exception is raised. *)
Definition getattr {A} (self : nat) (field : YamlIncludeConstructor -> A) : M A :=
  fun st =>
    match objects st !! self with
    | Some o => (Ok (field o), st)
    | None => (Raise (OtherException "ReferenceError"), st)
    end.

(** [self.<field> = ...] *)
Definition setattr (self : nat) (update : YamlIncludeConstructor -> YamlIncludeConstructor)
  : M unit :=
  fun st =>
    match objects st !! self with
    | Some o =>
        (Ok tt, {| objects := <[self := update o]> (objects st);
                   yaml_constructors := yaml_constructors st;
                   stderr := stderr st |})
    | None => (Raise (OtherException "ReferenceError"), st)
    end.

(** [yaml.add_constructor(tag, constructor)] and
    [yaml.add_constructor(tag, constructor, loader_class)] *)
Definition yaml_add_constructor (tag : string) (constructor : nat)
    (loader_class : option LoaderClass) : M unit :=
  fun st =>
    (Ok tt, {| objects := objects st;
               yaml_constructors := (loader_class, tag, constructor) :: yaml_constructors st;
               stderr := stderr st |}).

(** ** [yamlinclude/constructor.py] *)

(** [PYTHON_MAYOR_MINOR = '{0[0]}.{0[1]}'.format(version_info)] *)
Definition PYTHON_MAYOR_MINOR (w : World) : string :=
  NilZero.string_of_uint (N.to_uint (fst (version_info w)))
    +:+ "." +:+ NilZero.string_of_uint (N.to_uint (snd (version_info w))).

(** [WILDCARDS_REGEX = re.compile(r'^.*(\*|\?|\[!?.+\]).*$')] *)
Definition WILDCARDS_REGEX : re.regex := re.compile "^.*(\*|\?|\[!?.+\]).*$".

Definition DEFAULT_ENCODING : string := "utf-8".
Definition DEFAULT_TAG_NAME : string := "!include".

(** [__init__(self, base_dir=None, encoding=None)], with the creation of the
    object: the reference to the new object is returned. *)
Definition __init__ (base_dir encoding : option string) : M nat :=
  fun st =>
    (Ok (length (objects st)),
     {| objects := objects st ++ [{| _base_dir := base_dir; _encoding := encoding |}];
        yaml_constructors := yaml_constructors st;
        stderr := stderr st |}).

(** The property [base_dir] and its setter *)
Definition base_dir (self : nat) : M (option string) := getattr self _base_dir.

Definition base_dir_setter (self : nat) (value : option string) : M unit :=
  setattr self (fun o => {| _base_dir := value; _encoding := _encoding o |}).

(** The property [encoding] and its setter *)
Definition encoding (self : nat) : M (option string) := getattr self _encoding.

Definition encoding_setter (self : nat) (value : option string) : M unit :=
  setattr self (fun o => {| _base_dir := _base_dir o; _encoding := value |}).

(** [loadYaml(cls, path, file, loader)] *)
Definition loadYaml (w : World) (path : string) (file : File) (loader : Loader)
  : result value :=
  if endswith ".yaml" (lower path) || endswith ".yml" (lower path)
  then yaml_load w (FileStream file) (Some (loader_type loader))
  else s <~ file_read file ;; Ok (VStr s).

(** [os_env_path_matcher = re.compile(r'\$\{([^}^{]+)\}')] (line 118) *)
Definition os_env_path_matcher : re.regex := re.compile "\$\{([^}^{]+)\}".

(** Lines 137 to 141 of [load]: the keys are looked up one after the other,
    from the root of the configuration. *)
Definition lookup_keys (varsFromYamlConfig : value) (keyList : list string) : result value :=
  rfor_each keyList (fun aValue akey => getitem aValue akey) varsFromYamlConfig.

(** Lines 128 to 144 of [load]: the value of one variable.  [os.environ] is
    asked first; on [KeyError] the name is split at the dots and the keys
    are looked up in the configuration; on [KeyError] there, a line is
    printed and the value is the empty string. *)
Definition variable_value (w : World) (varsFromYamlConfig : value) (valueName : string)
  : M value :=
  try_except_KeyError
    (aValue <- lift (environ_getitem w valueName) ;; ret (VStr aValue))
    (let keyList := str_split "." valueName in
     try_except_KeyError
       (lift (lookup_keys varsFromYamlConfig keyList))
       (print_stderr ("No value for variable: " +:+ valueName) ;;; ret (VStr ""))).

(** Lines 127 to 145 of [load]: the body of the loop over the names. *)
Definition substitute_variable (w : World) (varsFromYamlConfig : value)
    (stringToBeSubstituted : value) (valueName : string) : M value :=
  aValue <- variable_value w varsFromYamlConfig valueName ;;
  s <- lift (re_sub w ("\${" +:+ valueName +:+ "}") (str aValue) (str stringToBeSubstituted)) ;;
  ret (VStr s).

(** Lines 118 to 148 of [load]: the substitution of the variables in the
    pathname.  The whole of it is inside [try: ... except KeyError: pass]. *)
Definition substitute_variables (w : World) (pathname : value) : M value :=
  try_except_KeyError
    (varsFromYamlConfigRaw <- lift (environ_getitem w "config") ;;
     varsFromYamlConfig <-
       lift (yaml_load w (TextStream varsFromYamlConfigRaw) (FullLoader w)) ;;
     valueNames <- lift (re_findall os_env_path_matcher pathname) ;;
     for_each valueNames (substitute_variable w varsFromYamlConfig) pathname)
    (ret pathname).

(** Lines 162 and 163, 165 and 166 of [load]: one file is opened and loaded. *)
Definition load_file (w : World) (loader : Loader) (path : string) (encoding : value)
  : result value :=
  fp <~ open_file w path encoding ;; loadYaml w path fp loader.

(** Lines 156 to 159 of [load]: the paths the pattern expands to.  The
    versions are compared as strings. *)
Definition expand (w : World) (pathname : string) (recursive : value) : list string :=
  if String.leb "3.5" (PYTHON_MAYOR_MINOR w)
  then iglob w pathname (truthy recursive)
  else iglob w pathname false.

(** Lines 154 to 166 of [load]: a pathname with a wildcard gives the list of
    what its regular files load to, any other pathname what the file it
    names loads to. *)
Definition load_pathname (w : World) (loader : Loader) (pathname recursive encoding : value)
  : result value :=
  match pathname with
  | VStr pathname =>
      if re.re_match WILDCARDS_REGEX pathname then
        result' <~ rfor_each (expand w pathname recursive)
                     (fun result' path =>
                        if isfile w path
                        then v <~ load_file w loader path encoding ;; Ok (result' ++ [v])%list
                        else Ok result') [] ;;
        Ok (VList result')
      else load_file w loader pathname encoding
  | _ => Raise TypeError
  end.

(** Lines 150 and 151 of [load]: the encoding to open the files with. *)
Definition effective_encoding (self : nat) (encoding : value) : M value :=
  if negb (truthy encoding) then
    self_encoding <- getattr self _encoding ;;
    ret (VStr (if truthy_opt self_encoding then default "" self_encoding
               else DEFAULT_ENCODING))
  else ret encoding.

(** Lines 152 and 153 of [load]: the pathname under the base directory. *)
Definition under_base_dir (self : nat) (pathname : value) : M value :=
  self_base_dir <- getattr self _base_dir ;;
  if truthy_opt self_base_dir
  then lift (os_path_join (default "" self_base_dir) pathname)
  else ret pathname.

(** [load(self, loader, pathname, recursive=False, encoding=None)] *)
Definition load (w : World) (self : nat) (loader : Loader)
    (pathname recursive encoding : value) : M value :=
  pathname <- substitute_variables w pathname ;;
  encoding <- effective_encoding self encoding ;;
  pathname <- under_base_dir self pathname ;;
  lift (load_pathname w loader pathname recursive encoding).

(** [loader.construct_scalar(node)] for a scalar node: its text *)
Definition construct_scalar (text : string) : value := VStr text.

(** [self.load(loader, *args)]: one to three positional arguments *)
Definition load_args (w : World) (self : nat) (loader : Loader) (args : list value)
  : M value :=
  match args with
  | [pathname] => load w self loader pathname (VBool false) VNone
  | [pathname; recursive] => load w self loader pathname recursive VNone
  | [pathname; recursive; encoding] => load w self loader pathname recursive encoding
  | _ => raise TypeError
  end.

(** The keys of a mapping that name a parameter of [load] after [loader]. *)
Definition is_parameter (key : value) : bool :=
  match key with
  | VStr k => String.eqb k "pathname" || String.eqb k "recursive" || String.eqb k "encoding"
  | _ => false
  end.

(** [self.load(loader, **kwargs)]: every key must name a parameter, and
    [pathname] must be given. *)
Definition load_kwargs (w : World) (self : nat) (loader : Loader)
    (kwargs : list (value * value)) : M value :=
  if forallb (fun kv => is_parameter (fst kv)) kwargs then
    match dict_get kwargs "pathname" with
    | Some pathname =>
        load w self loader pathname
          (default (VBool false) (dict_get kwargs "recursive"))
          (default VNone (dict_get kwargs "encoding"))
    | None => raise TypeError
    end
  else raise TypeError.

(** [__call__(self, loader, node)] *)
Definition __call__ (w : World) (self : nat) (loader : Loader) (node : Node) : M value :=
  match node with
  | ScalarNode _ text => load_args w self loader [construct_scalar text]
  | SequenceNode _ children =>
      args <- lift (construct_sequence w loader children) ;;
      load_args w self loader args
  | MappingNode _ pairs =>
      kwargs <- lift (construct_mapping w loader pairs) ;;
      load_kwargs w self loader kwargs
  | OtherNode _ => raise TypeError
  end.

(** The keyword arguments of [add_to_loader_class], which it hands to
    [__init__]: those that [__init__] accepts. *)
Record Kwargs : Type := {
  kw_base_dir : option string;
  kw_encoding : option string
}.

(** [add_to_loader_class(cls, loader_class=None, tag=None, **kwargs)] *)
Definition add_to_loader_class (loader_class : option LoaderClass) (tag : option string)
    (kwargs : Kwargs) : M nat :=
  let tag := match tag with None => "" | Some tag => tag end in
  let tag := strip tag in
  let tag := if String.eqb tag "" then DEFAULT_TAG_NAME else tag in
  if negb (startswith "!" tag) then raise ValueError
  else
    instance <- __init__ (kw_base_dir kwargs) (kw_encoding kwargs) ;;
    match loader_class with
    | None => yaml_add_constructor tag instance None
    | Some loader_class => yaml_add_constructor tag instance (Some loader_class)
    end ;;;
    ret instance.

(** ** Example worlds

    A process with the variable [FOO] in its environment, and in [config]
    the text given; a directory [conf] with the files [a.yml] and [b.txt]
    and the directory [sub]; a file [cfg/bar.yaml]; a YAML parser that knows
    the documents of these examples. *)

Definition example_config : string := "{db: {host: localhost}, db_host: other}".

Definition example_yaml_load (s : stream) (_ : option LoaderClass) : result value :=
  match s with
  | TextStream text =>
      if String.eqb text example_config then
        Ok (VDict [(VStr "db", VDict [(VStr "host", VStr "localhost")]);
                   (VStr "db_host", VStr "other")])
      else if String.eqb text "db: localhost" then Ok (VDict [(VStr "db", VStr "localhost")])
      else Raise YAMLError
  | FileStream file =>
      text <~ file_read file ;;
      if String.eqb text "a: 1" then Ok (VDict [(VStr "a", VInt 1)])
      else if String.eqb text "bar" then Ok (VStr "bar")
      else Raise YAMLError
  end.

Definition example_construct (node : Node) : result value :=
  match node with
  | ScalarNode _ text =>
      if String.eqb text "true" then Ok (VBool true) else Ok (VStr text)
  | _ => Raise YAMLError
  end.

Fixpoint example_construct_sequence (children : list Node) : result (list value) :=
  match children with
  | [] => Ok []
  | node :: children' =>
      v <~ example_construct node ;;
      vs <~ example_construct_sequence children' ;;
      Ok (v :: vs)
  end.

Fixpoint example_construct_mapping (pairs : list (Node * Node))
  : result (list (value * value)) :=
  match pairs with
  | [] => Ok []
  | (key, node) :: pairs' =>
      k <~ example_construct key ;;
      v <~ example_construct node ;;
      kvs <~ example_construct_mapping pairs' ;;
      Ok ((k, v) :: kvs)
  end.

Definition example_open (path : string) (_ : string) : result File :=
  if String.eqb path "conf/a.yml" then Ok {| file_read := Ok "a: 1" |}
  else if String.eqb path "conf/b.txt" then Ok {| file_read := Ok "some text" |}
  else if String.eqb path "cfg/bar.yaml" then Ok {| file_read := Ok "bar" |}
  else Raise OSError.

Definition example_world (env : gmap string string) : World := {|
  environ := env;
  version_info := (3, 8)%N;
  FullLoader := Some yaml_FullLoader;
  yaml_load := example_yaml_load;
  construct_sequence := fun _ => example_construct_sequence;
  construct_mapping := fun _ => example_construct_mapping;
  iglob := fun pathname _ =>
    if String.eqb pathname "conf/*" then ["conf/a.yml"; "conf/sub"; "conf/b.txt"] else [];
  isfile := fun path =>
    String.eqb path "conf/a.yml" || String.eqb path "conf/b.txt"
    || String.eqb path "cfg/bar.yaml";
  io_open := example_open;
  re_sub_other := fun _ _ _ => Raise re_error
|}.

(** The environment without [config], with [config], and with a [config]
    whose [db] is no mapping. *)
Definition env_FOO : gmap string string := {[ "FOO" := "bar" ]}.

Definition env_config : gmap string string :=
  <[ "config" := example_config ]> env_FOO.

Definition env_flat_config : gmap string string :=
  <[ "config" := "db: localhost" ]> env_FOO.

Definition env_bad_config : gmap string string :=
  <[ "config" := "{" ]> env_FOO.

Definition example_loader : Loader := {| loader_type := yaml_FullLoader |}.

Definition initial_state : State :=
  {| objects := []; yaml_constructors := []; stderr := [] |}.

(** The state after [YamlIncludeConstructor.add_to_loader_class()]. *)
Definition registered_state : State :=
  {| objects := [{| _base_dir := None; _encoding := None |}];
     yaml_constructors := [(None, "!include", 0)];
     stderr := [] |}.

(** ** Notions of the specification *)

(** A name that ends, whatever the case of its letters, in [ext]. *)
Definition ends_with_ignoring_case (ext path : string) : Prop :=
  exists stem e, path = stem +:+ e /\ lower e = ext.

(** A monadic computation that leaves every resolver object as it is. *)
Definition preserves_objects {A} (m : M A) : Prop :=
  forall st, objects (snd (m st)) = objects st.

(** The pathname holds [*], [?], or a bracket, at least one character and a
    closing bracket. *)
Definition has_wildcard (pathname : string) : Prop :=
  exists before after,
    pathname = before +:+ "*" +:+ after
    \/ pathname = before +:+ "?" +:+ after
    \/ exists c inside, pathname = before +:+ "[" +:+ String c inside +:+ "]" +:+ after.

(** The files are loaded one after the other, each one on its own; the
    first error ends it. *)
Fixpoint load_each (w : World) (loader : Loader) (encoding : value) (paths : list string)
  : result (list value) :=
  match paths with
  | [] => Ok []
  | path :: paths' =>
      v <~ load_file w loader path encoding ;;
      vs <~ load_each w loader encoding paths' ;;
      Ok (v :: vs)
  end.

(** The regular files among the paths a pattern expands to, in the order of
    the expansion. *)
Definition regular_files (w : World) (pathname : string) (recursive : value) : list string :=
  List.filter (isfile w) (expand w pathname recursive).

(** What [load] does with the pathname once the variables are substituted. *)
Definition load_substituted (w : World) (self : nat) (loader : Loader)
    (pathname recursive encoding : value) : M value :=
  encoding <- effective_encoding self encoding ;;
  pathname <- under_base_dir self pathname ;;
  lift (load_pathname w loader pathname recursive encoding).

(** The replacement of the matches of a variable's pattern by its value. *)
Definition replace_variable (w : World) (valueName : string) (aValue : value)
    (stringToBeSubstituted : value) : result value :=
  s <~ re_sub w ("\${" +:+ valueName +:+ "}") (str aValue) (str stringToBeSubstituted) ;;
  Ok (VStr s).

(** The group of [WILDCARDS_REGEX]. *)
Definition wildcard_group : re.regex :=
  re.Branch (re.Literal "*")
    (re.Branch (re.Literal "?")
       (re.Seq (re.Literal "[")
          (re.Seq (re.MaxRepeat 0 (Some 1%N) (re.Literal "!"))
             (re.Seq (re.MaxRepeat 1 None re.AnyChar) (re.Literal "]"))))).

(** A character that [_parse] takes for itself wherever it stands. *)
Definition plain (c : ascii) : bool :=
  negb (existsb (Ascii.eqb c)
          ["|"; ")"; "\"; "["; "?"; "*"; "+"; "{"; "."; "^"; "$"; "("]%char).

Fixpoint all_plain (s : string) : bool :=
  match s with
  | EmptyString => true
  | String c s' => plain c && all_plain s'
  end.

(** The items of a sequence, first one first, as one pattern. *)
Fixpoint seq_right (items : list re.regex) (tail : re.regex) : re.regex :=
  match items with
  | [] => tail
  | r :: items' =>
      match seq_right items' tail with
      | re.Empty => r
      | t => re.Seq r t
      end
  end.

Fixpoint literals (s : string) : list re.regex :=
  match s with
  | EmptyString => []
  | String c s' => re.Literal c :: literals s'
  end.

(** [s.replace(old, new)] for an [old] that is not empty: the text is read
    from the left; where [old] starts, [new] is put and the characters of
    [old] are skipped. *)
Fixpoint replace_skipping (old new : string) (skip : nat) (s : string) : string :=
  match s with
  | EmptyString => ""
  | String c s' =>
      match skip with
      | S n => replace_skipping old new n s'
      | O =>
          if String.prefix old s
          then new +:+ replace_skipping old new (String.length old - 1) s'
          else String c (replace_skipping old new 0 s')
      end
  end.

Definition replace (old new s : string) : string := replace_skipping old new 0 s.

(** ** Further notions *)

(** The line that [load] prints for a name without value. *)
Definition no_value_line (valueName : string) : string :=
  "No value for variable: " +:+ valueName.

(** A computation that registers no constructor and only prints, in the
    order of [names], the line for some of them. *)
Definition reports {A} (names : list string) (m : M A) : Prop :=
  forall st,
    yaml_constructors (snd (m st)) = yaml_constructors st
    /\ exists unresolved,
         sublist unresolved names
         /\ stderr (snd (m st)) = (stderr st ++ List.map no_value_line unresolved)%list.

(** The names of the placeholders of a pathname. *)
Definition placeholder_names (pathname : value) : list string :=
  match pathname with
  | VStr s => re.findall os_env_path_matcher s
  | _ => []
  end.

(** The value that the keys lead to, through mappings, from [v]. *)
Fixpoint reaches (v : value) (keys : list string) (x : value) : Prop :=
  match keys with
  | [] => v = x
  | key :: keys' =>
      exists items next,
        v = VDict items /\ dict_get items key = Some next /\ reaches next keys' x
  end.

(** [".".join(keys)] *)
Fixpoint join_dots (keys : list string) : string :=
  match keys with
  | [] => ""
  | [key] => key
  | key :: keys' => key +:+ "." +:+ join_dots keys'
  end.

(** A character that a placeholder name may hold: any but the braces and the
    caret. *)
Definition name_char (c : ascii) : bool :=
  negb (Ascii.eqb c "}" || Ascii.eqb c "^" || Ascii.eqb c "{").

Fixpoint all_name_chars (s : string) : bool :=
  match s with
  | EmptyString => true
  | String c s' => name_char c && all_name_chars s'
  end.

(** The encoding [load] opens the files with: that of the request when it
    is true, else that of the resolver when it is not empty, else
    [utf-8]. *)
Definition resolved_encoding (o : YamlIncludeConstructor) (request : value) : value :=
  if truthy request then request
  else match _encoding o with
       | Some e => if String.eqb e "" then VStr "utf-8" else VStr e
       | None => VStr "utf-8"
       end.

(** A world that differs in the version of Python only. *)
Definition with_version (w : World) (major minor : N) : World := {|
  environ := environ w;
  version_info := (major, minor);
  FullLoader := FullLoader w;
  yaml_load := yaml_load w;
  construct_sequence := construct_sequence w;
  construct_mapping := construct_mapping w;
  iglob := iglob w;
  isfile := isfile w;
  io_open := io_open w;
  re_sub_other := re_sub_other w
|}.


(** The example world when [conf/b.txt] cannot be decoded. *)
Definition example_world_undecodable (env : gmap string string) : World := {|
  environ := env;
  version_info := (3, 8)%N;
  FullLoader := Some yaml_FullLoader;
  yaml_load := example_yaml_load;
  construct_sequence := fun _ => example_construct_sequence;
  construct_mapping := fun _ => example_construct_mapping;
  iglob := iglob (example_world env);
  isfile := isfile (example_world env);
  io_open := fun path e =>
    if String.eqb path "conf/b.txt" then Ok {| file_read := Raise UnicodeError |}
    else example_open path e;
  re_sub_other := fun _ _ _ => Raise re_error
|}.

(** The characters that the set of [os_env_path_matcher] excludes. *)
Definition name_ranges : list (ascii * ascii) :=
  [("}", "}"); ("^", "^"); ("{", "{")]%char.

(** * Properties *)

(** ** Strings *)

Lemma append_nil_l (s : string) : "" +:+ s = s.
Proof. reflexivity. Qed.

Lemma append_cons (c : ascii) (a b : string) : String c a +:+ b = String c (a +:+ b).
Proof. reflexivity. Qed.

Lemma append_nil_r (s : string) : s +:+ "" = s.
Proof.
  induction s as [|c s IH]; [reflexivity |]. now rewrite append_cons, IH.
Qed.

Lemma endswith_nil (p : string) : endswith p "" = String.eqb "" p.
Proof. unfold endswith. apply orb_false_r. Qed.

Lemma endswith_cons (p : string) (c : ascii) (s : string) :
  endswith p (String c s) = String.eqb (String c s) p || endswith p s.
Proof. reflexivity. Qed.

Lemma endswith_suffix (p s : string) :
  endswith p s = true <-> exists a, s = a +:+ p.
Proof.
  induction s as [|c s IH].
  - rewrite endswith_nil. split.
    + intros H. apply String.eqb_eq in H. subst p. now exists "".
    + intros [a Ha]. destruct a; [| rewrite append_cons in Ha; discriminate].
      rewrite append_nil_l in Ha. subst p. reflexivity.
  - rewrite endswith_cons, orb_true_iff, IH. split.
    + intros [H | [a Ha]].
      * apply String.eqb_eq in H. subst p. now exists "".
      * exists (String c a). now rewrite append_cons, Ha.
    + intros [a Ha]. destruct a as [|x a].
      * left. rewrite append_nil_l in Ha. subst p. apply String.eqb_refl.
      * right. rewrite append_cons in Ha. injection Ha as _ Ha. now exists a.
Qed.

(** The test of [loadYaml] on the lowered path is the suffix ignoring
    case. *)
Lemma endswith_lower (ext path : string) :
  endswith ext (lower path) = true <-> ends_with_ignoring_case ext path.
Proof.
  unfold ends_with_ignoring_case. induction path as [|c path IH].
  - change (lower "") with "". rewrite endswith_nil. split.
    + intros H. apply String.eqb_eq in H. now exists "", "".
    + intros (stem & e & Hp & He).
      destruct stem; [| rewrite append_cons in Hp; discriminate].
      rewrite append_nil_l in Hp. subst e. simpl in He. subst ext. reflexivity.
  - change (lower (String c path)) with (String (lower_char c) (lower path)).
    rewrite endswith_cons, orb_true_iff, IH. split.
    + intros [H | (stem & e & Hp & He)].
      * apply String.eqb_eq in H. exists "", (String c path). now split.
      * exists (String c stem), e. now rewrite append_cons, Hp.
    + intros (stem & e & Hp & He). destruct stem as [|x stem].
      * left. rewrite append_nil_l in Hp. subst e. simpl in He. subst ext.
        apply String.eqb_refl.
      * right. rewrite append_cons in Hp. injection Hp as _ Hp. now exists stem, e.
Qed.

Lemma contains_char_append (c : ascii) (a b : string) :
  contains_char c (a +:+ b) = contains_char c a || contains_char c b.
Proof.
  induction a as [|x a IH]; [reflexivity |].
  rewrite append_cons. simpl. now rewrite IH, orb_assoc.
Qed.

Lemma length_append (a b : string) :
  String.length (a +:+ b) = String.length a + String.length b.
Proof.
  induction a as [|x a IH]; [reflexivity |].
  rewrite append_cons. simpl. now rewrite IH.
Qed.

(** ** The file loader *)

(** C7: a file whose name ends, whatever the case of the letters, in [.yaml]
    or [.yml] is handed to [yaml.load] with the class of the loader that is
    parsing, and what [yaml.load] gives is returned; for every other name
    the text that [read()] gives is returned as a string. *)
Theorem loadYaml_by_extension (w : World) (path : string) (file : File) (loader : Loader) :
  (ends_with_ignoring_case ".yaml" path \/ ends_with_ignoring_case ".yml" path ->
   loadYaml w path file loader = yaml_load w (FileStream file) (Some (loader_type loader)))
  /\ (~ (ends_with_ignoring_case ".yaml" path \/ ends_with_ignoring_case ".yml" path) ->
      loadYaml w path file loader = (s <~ file_read file ;; Ok (VStr s))).
Proof.
  unfold loadYaml.
  destruct (endswith ".yaml" (lower path) || endswith ".yml" (lower path)) eqn:E.
  - split; [reflexivity |]. intros H. exfalso. apply H.
    apply orb_true_iff in E. rewrite !endswith_lower in E. exact E.
  - split; [| reflexivity]. intros H.
    rewrite <- !endswith_lower, <- orb_true_iff in H. congruence.
Qed.

Lemma loadYaml_by_extension_witness :
  loadYaml (example_world env_FOO) "conf/A.YML" {| file_read := Ok "a: 1" |} example_loader
    = Ok (VDict [(VStr "a", VInt 1)])
  /\ loadYaml (example_world env_FOO) "conf/a.yml.txt" {| file_read := Ok "a: 1" |}
       example_loader = Ok (VStr "a: 1").
Proof.
  split.
  - rewrite (proj1 (loadYaml_by_extension (example_world env_FOO) "conf/A.YML"
               {| file_read := Ok "a: 1" |} example_loader)).
    + reflexivity.
    + right. exists "conf/A", ".YML". split; reflexivity.
  - rewrite (proj2 (loadYaml_by_extension (example_world env_FOO) "conf/a.yml.txt"
               {| file_read := Ok "a: 1" |} example_loader)).
    + reflexivity.
    + rewrite <- !endswith_lower. vm_compute. intros [H | H]; discriminate H.
Defined.

(** ** Registration *)

(** A tag with white space before the [!] is stripped and registered. *)
Lemma padded_tag_example :
  add_to_loader_class None (Some " !inc")
    {| kw_base_dir := None; kw_encoding := None |} initial_state
  = (Ok 0,
     {| objects := [{| _base_dir := None; _encoding := None |}];
        yaml_constructors := [(None, "!inc", 0)];
        stderr := [] |}).
Proof. reflexivity. Qed.

(** C9, as the claim states it, fails: not every tag that is not empty and
    does not start with [!] raises the error.  The tag [ !inc], with a space
    before the [!], is accepted, since the tag is stripped before it is
    tested. *)
Lemma padded_tag_is_registered :
  ~ (forall loader_class tag kwargs st,
       tag <> "" -> startswith "!" tag = false ->
       add_to_loader_class loader_class (Some tag) kwargs st = (Raise ValueError, st)).
Proof.
  intros H.
  specialize (H None " !inc" {| kw_base_dir := None; kw_encoding := None |} initial_state).
  rewrite padded_tag_example in H.
  discriminate H; [discriminate | reflexivity].
Qed.

(** C9, amended: the tag is stripped of surrounding white space first.  A
    tag that is missing or then empty is replaced by [!include] and the
    registration succeeds; a tag that is then not empty and does not start
    with [!] raises [ValueError] and nothing is created or registered; a tag
    that then starts with [!] is registered as stripped.  On success the
    reference returned is that of the object just created, which holds the
    base directory and the encoding given. *)
Theorem add_to_loader_class_tag (loader_class : option LoaderClass) (tag : option string)
    (kwargs : Kwargs) (st : State) :
  let stripped := strip (default "" tag) in
  let created := {| _base_dir := kw_base_dir kwargs; _encoding := kw_encoding kwargs |} in
  let registered name :=
    {| objects := objects st ++ [created];
       yaml_constructors := (loader_class, name, length (objects st)) :: yaml_constructors st;
       stderr := stderr st |} in
  (stripped = "" ->
   add_to_loader_class loader_class tag kwargs st
   = (Ok (length (objects st)), registered DEFAULT_TAG_NAME))
  /\ (stripped <> "" -> startswith "!" stripped = false ->
      add_to_loader_class loader_class tag kwargs st = (Raise ValueError, st))
  /\ (startswith "!" stripped = true ->
      add_to_loader_class loader_class tag kwargs st
      = (Ok (length (objects st)), registered stripped))
  /\ (forall name, objects (registered name) !! length (objects st) = Some created).
Proof.
  intros stripped created registered.
  assert (Hdef : default "" tag = match tag with None => "" | Some t => t end)
    by now destruct tag.
  unfold add_to_loader_class. rewrite <- Hdef. fold stripped.
  repeat split.
  - intros E. rewrite E. now destruct loader_class.
  - intros Hne Hbang.
    destruct (String.eqb stripped "") eqn:E.
    + apply String.eqb_eq in E. contradiction.
    + now rewrite Hbang.
  - intros Hbang.
    destruct (String.eqb stripped "") eqn:E.
    + apply String.eqb_eq in E. rewrite E in Hbang. discriminate.
    + rewrite Hbang. now destruct loader_class.
  - intros name. simpl. rewrite lookup_app_r by lia.
    now rewrite Nat.sub_diag.
Qed.

Lemma add_to_loader_class_tag_witness :
  add_to_loader_class None None {| kw_base_dir := Some "/etc"; kw_encoding := None |}
    initial_state
  = (Ok 0,
     {| objects := [{| _base_dir := Some "/etc"; _encoding := None |}];
        yaml_constructors := [(None, "!include", 0)];
        stderr := [] |})
  /\ add_to_loader_class None (Some "inc") {| kw_base_dir := None; kw_encoding := None |}
       initial_state
     = (Raise ValueError, initial_state)
  /\ add_to_loader_class (Some yaml_SafeLoader) (Some "!inc ")
       {| kw_base_dir := None; kw_encoding := None |} registered_state
     = (Ok 1,
        {| objects := [{| _base_dir := None; _encoding := None |};
                       {| _base_dir := None; _encoding := None |}];
           yaml_constructors := [(Some yaml_SafeLoader, "!inc", 1); (None, "!include", 0)];
           stderr := [] |}).
Proof.
  split; [| split].
  - apply (proj1 (add_to_loader_class_tag None None
             {| kw_base_dir := Some "/etc"; kw_encoding := None |} initial_state)).
    reflexivity.
  - apply (proj1 (proj2 (add_to_loader_class_tag None (Some "inc")
             {| kw_base_dir := None; kw_encoding := None |} initial_state))).
    + discriminate.
    + reflexivity.
  - apply (proj1 (proj2 (proj2 (add_to_loader_class_tag (Some yaml_SafeLoader) (Some "!inc ")
             {| kw_base_dir := None; kw_encoding := None |} registered_state)))).
    reflexivity.
Defined.

(** ** The dispatch on the node *)

Lemma forallb_is_parameter (kwargs : list (value * value)) :
  forallb (fun kv => is_parameter (fst kv)) kwargs = true <->
  (forall k v, In (k, v) kwargs ->
     k = VStr "pathname" \/ k = VStr "recursive" \/ k = VStr "encoding").
Proof.
  rewrite forallb_forall. split.
  - intros H k v Hin. specialize (H _ Hin). simpl in H.
    destruct k; try discriminate. unfold is_parameter in H.
    rewrite !orb_true_iff, !String.eqb_eq in H.
    destruct H as [[-> | ->] | ->]; auto.
  - intros H [k v] Hin. simpl.
    destruct (H _ _ Hin) as [-> | [-> | ->]]; reflexivity.
Qed.

(** C8: the text of a scalar node is the only argument of [load]; the
    elements of a sequence node are its arguments [pathname], [recursive]
    and [encoding] in this order, the last two optional; the keys of a
    mapping node name these arguments; a node of another kind raises
    [TypeError]. *)
Theorem call_dispatch (w : World) (self : nat) (loader : Loader) (st : State) :
  (forall tag text,
     __call__ w self loader (ScalarNode tag text) st
     = load w self loader (VStr text) (VBool false) VNone st)
  /\ (forall tag children pathname,
        construct_sequence w loader children = Ok [pathname] ->
        __call__ w self loader (SequenceNode tag children) st
        = load w self loader pathname (VBool false) VNone st)
  /\ (forall tag children pathname recursive,
        construct_sequence w loader children = Ok [pathname; recursive] ->
        __call__ w self loader (SequenceNode tag children) st
        = load w self loader pathname recursive VNone st)
  /\ (forall tag children pathname recursive encoding,
        construct_sequence w loader children = Ok [pathname; recursive; encoding] ->
        __call__ w self loader (SequenceNode tag children) st
        = load w self loader pathname recursive encoding st)
  /\ (forall tag pairs kwargs pathname,
        construct_mapping w loader pairs = Ok kwargs ->
        (forall k v, In (k, v) kwargs ->
           k = VStr "pathname" \/ k = VStr "recursive" \/ k = VStr "encoding") ->
        dict_get kwargs "pathname" = Some pathname ->
        __call__ w self loader (MappingNode tag pairs) st
        = load w self loader pathname
            (default (VBool false) (dict_get kwargs "recursive"))
            (default VNone (dict_get kwargs "encoding")) st)
  /\ (forall tag, __call__ w self loader (OtherNode tag) st = (Raise TypeError, st)).
Proof.
  repeat split.
  - intros tag children pathname H. unfold __call__, bind, lift. now rewrite H.
  - intros tag children pathname recursive H. unfold __call__, bind, lift. now rewrite H.
  - intros tag children pathname recursive encoding H.
    unfold __call__, bind, lift. now rewrite H.
  - intros tag pairs kwargs pathname H Hkeys Hp.
    unfold __call__, bind, lift. rewrite H. unfold load_kwargs.
    apply forallb_is_parameter in Hkeys. now rewrite Hkeys, Hp.
Qed.

Lemma call_dispatch_witness :
  let w := example_world env_config in
  __call__ w 0 example_loader
    (SequenceNode "!include" [ScalarNode "" "conf/*"]) registered_state
  = load w 0 example_loader (VStr "conf/*") (VBool false) VNone registered_state
  /\ __call__ w 0 example_loader
       (SequenceNode "!include" [ScalarNode "" "conf/*"; ScalarNode "" "true"]) registered_state
     = load w 0 example_loader (VStr "conf/*") (VBool true) VNone registered_state
  /\ __call__ w 0 example_loader
       (SequenceNode "!include"
          [ScalarNode "" "conf/*"; ScalarNode "" "true"; ScalarNode "" "latin-1"])
       registered_state
     = load w 0 example_loader (VStr "conf/*") (VBool true) (VStr "latin-1") registered_state
  /\ __call__ w 0 example_loader
       (MappingNode "!include"
          [(ScalarNode "" "pathname", ScalarNode "" "conf/b.txt");
           (ScalarNode "" "encoding", ScalarNode "" "latin-1")])
       registered_state
     = load w 0 example_loader (VStr "conf/b.txt") (VBool false) (VStr "latin-1")
         registered_state.
Proof.
  intros w.
  pose proof (call_dispatch w 0 example_loader registered_state)
    as (_ & H1 & H2 & H3 & H4 & _).
  split; [| split; [| split]].
  - apply H1. reflexivity.
  - apply H2. reflexivity.
  - apply H3. reflexivity.
  - apply (H4 "!include" _
             [(VStr "pathname", VStr "conf/b.txt"); (VStr "encoding", VStr "latin-1")]).
    + reflexivity.
    + intros k v [E | [E | []]]; injection E as <- _; auto.
    + reflexivity.
Defined.

(** ** The resolver objects are left as they are *)

Lemma preserves_ret {A} (a : A) : preserves_objects (ret a).
Proof. intros st. reflexivity. Qed.

Lemma preserves_raise {A} (e : exn) : preserves_objects (@raise A e).
Proof. intros st. reflexivity. Qed.

Lemma preserves_lift {A} (r : result A) : preserves_objects (lift r).
Proof. intros st. reflexivity. Qed.

Lemma preserves_print (line : string) : preserves_objects (print_stderr line).
Proof. intros st. reflexivity. Qed.

Lemma preserves_getattr {A} (self : nat) (field : YamlIncludeConstructor -> A) :
  preserves_objects (getattr self field).
Proof. intros st. unfold getattr. now destruct (objects st !! self). Qed.

Lemma preserves_bind {A B} (m : M A) (f : A -> M B) :
  preserves_objects m -> (forall a, preserves_objects (f a)) ->
  preserves_objects (bind m f).
Proof.
  intros Hm Hf st. unfold bind. specialize (Hm st).
  destruct (m st) as [[a | e] st']; simpl in *.
  - now rewrite Hf.
  - exact Hm.
Qed.

Lemma preserves_try {A} (m handler : M A) :
  preserves_objects m -> preserves_objects handler ->
  preserves_objects (try_except_KeyError m handler).
Proof.
  intros Hm Hh st. unfold try_except_KeyError. specialize (Hm st).
  destruct (m st) as [[a | e] st']; simpl in *.
  - exact Hm.
  - destruct (is_KeyError e); simpl; [now rewrite Hh | exact Hm].
Qed.

Lemma preserves_for_each {A S} (l : list A) (body : S -> A -> M S) (s : S) :
  (forall s x, preserves_objects (body s x)) ->
  preserves_objects (for_each l body s).
Proof.
  intros Hbody. revert s.
  induction l as [|x l IH]; intros s; simpl.
  - apply preserves_ret.
  - apply preserves_bind; [apply Hbody | exact IH].
Qed.

Lemma preserves_if {A} (b : bool) (m1 m2 : M A) :
  preserves_objects m1 -> preserves_objects m2 ->
  preserves_objects (if b then m1 else m2).
Proof. now destruct b. Qed.

Create HintDb frame.
#[local] Hint Resolve preserves_ret preserves_raise preserves_lift preserves_print
  preserves_getattr preserves_try preserves_if : frame.
#[local] Hint Extern 2 (preserves_objects (bind _ _)) =>
  apply preserves_bind; [| intro] : frame.
#[local] Hint Extern 2 (preserves_objects (for_each _ _ _)) =>
  apply preserves_for_each; intros : frame.

Ltac frame := auto 20 with frame.

Lemma preserves_variable_value (w : World) (cfg : value) (valueName : string) :
  preserves_objects (variable_value w cfg valueName).
Proof. unfold variable_value. frame. Qed.

Lemma preserves_substitute_variable (w : World) (cfg s : value) (valueName : string) :
  preserves_objects (substitute_variable w cfg s valueName).
Proof.
  unfold substitute_variable.
  pose proof (preserves_variable_value w cfg valueName). frame.
Qed.

Lemma preserves_substitute_variables (w : World) (pathname : value) :
  preserves_objects (substitute_variables w pathname).
Proof.
  unfold substitute_variables.
  apply preserves_try; [| frame].
  apply preserves_bind; [frame | intros raw].
  apply preserves_bind; [frame | intros cfg].
  apply preserves_bind; [frame | intros names].
  apply preserves_for_each. intros s x. apply preserves_substitute_variable.
Qed.

Lemma preserves_load (w : World) (self : nat) (loader : Loader)
    (pathname recursive encoding : value) :
  preserves_objects (load w self loader pathname recursive encoding).
Proof.
  unfold load, effective_encoding, under_base_dir.
  pose proof (preserves_substitute_variables w pathname). frame.
Qed.

Lemma preserves_call (w : World) (self : nat) (loader : Loader) (node : Node) :
  preserves_objects (__call__ w self loader node).
Proof.
  destruct node as [tag text | tag children | tag pairs | tag]; simpl.
  - apply preserves_load.
  - apply preserves_bind; [frame |]. intros args. unfold load_args.
    destruct args as [|p [|r [|e [|x args]]]]; try apply preserves_load; frame.
  - apply preserves_bind; [frame |]. intros kwargs. unfold load_kwargs.
    destruct (forallb _ kwargs); [| frame].
    destruct (dict_get kwargs "pathname"); [apply preserves_load | frame].
  - apply preserves_raise.
Qed.

(** C10: whatever [__call__] and [load] return or raise, the objects, and so
    the base directory and the encoding of the resolver, are afterwards what
    they were before, also when an encoding is given with the request or
    the pathname is joined to the base directory; reading a property
    changes nothing, and a registration creates an object and leaves the
    existing ones as they are. *)
Theorem include_leaves_configuration (w : World) (self : nat) (loader : Loader) (st : State) :
  (forall node,
     let st' := snd (__call__ w self loader node st) in
     objects st' = objects st
     /\ fst (base_dir self st') = fst (base_dir self st)
     /\ fst (encoding self st') = fst (encoding self st))
  /\ (forall pathname recursive request_encoding,
        let st' := snd (load w self loader pathname recursive request_encoding st) in
        objects st' = objects st
        /\ fst (base_dir self st') = fst (base_dir self st)
        /\ fst (encoding self st') = fst (encoding self st))
  /\ objects (snd (base_dir self st)) = objects st
  /\ objects (snd (encoding self st)) = objects st
  /\ (forall loader_class tag kwargs,
        exists created,
          objects (snd (add_to_loader_class loader_class tag kwargs st))
          = (objects st ++ created)%list).
Proof.
  assert (Hread : forall st', objects st' = objects st ->
            fst (base_dir self st') = fst (base_dir self st)
            /\ fst (encoding self st') = fst (encoding self st)).
  { intros st' E. unfold base_dir, encoding, getattr. rewrite E.
    now destruct (objects st !! self). }
  repeat split.
  - apply preserves_call.
  - apply Hread, preserves_call.
  - apply Hread, preserves_call.
  - apply preserves_load.
  - apply Hread, preserves_load.
  - apply Hread, preserves_load.
  - apply preserves_getattr.
  - apply preserves_getattr.
  - intros loader_class tag kwargs. unfold add_to_loader_class.
    destruct (negb _).
    + exists []. simpl. now rewrite app_nil_r.
    + destruct loader_class; eexists; reflexivity.
Qed.

(** The setters do write the attribute they name, and only it. *)
Lemma setters_write (self : nat) (o : YamlIncludeConstructor) (v : option string)
    (st : State) :
  objects st !! self = Some o ->
  objects (snd (base_dir_setter self v st))
  = <[self := {| _base_dir := v; _encoding := _encoding o |}]> (objects st)
  /\ objects (snd (encoding_setter self v st))
     = <[self := {| _base_dir := _base_dir o; _encoding := v |}]> (objects st).
Proof.
  intros H. unfold base_dir_setter, encoding_setter, setattr. now rewrite H.
Qed.

(** ** The substitution of variables *)

Lemma load_stages (w : World) (self : nat) (loader : Loader)
    (pathname recursive encoding : value) :
  load w self loader pathname recursive encoding
  = (substituted <- substitute_variables w pathname ;;
     load_substituted w self loader substituted recursive encoding).
Proof. reflexivity. Qed.

Lemma substitute_variables_without_config (w : World) (pathname : value) (st : State) :
  environ w !! "config" = None ->
  substitute_variables w pathname st = (Ok pathname, st).
Proof.
  intros H. unfold substitute_variables, try_except_KeyError, bind, lift, environ_getitem.
  now rewrite H.
Qed.

Lemma substitute_variables_config_error (w : World) (pathname : value) (st : State)
    (raw : string) (e : exn) :
  environ w !! "config" = Some raw ->
  yaml_load w (TextStream raw) (FullLoader w) = Raise e ->
  substitute_variables w pathname st
  = if is_KeyError e then (Ok pathname, st) else (Raise e, st).
Proof.
  intros H1 H2.
  unfold substitute_variables, try_except_KeyError, bind, lift, environ_getitem.
  rewrite H1, H2. now destruct e.
Qed.

(** Without [config] in the environment the variable [FOO] of the
    environment is not substituted: the pathname is left as it is and the
    file it then names is missing, while with [config] set the file
    [cfg/bar.yaml] is loaded.  With a [config] that is no YAML the error of
    the parser is raised. *)
Lemma without_config_example :
  environ (example_world env_FOO) !! "config" = None
  /\ environ (example_world env_FOO) !! "FOO" = Some "bar"
  /\ substitute_variables (example_world env_FOO) (VStr "cfg/${FOO}.yaml") registered_state
     = (Ok (VStr "cfg/${FOO}.yaml"), registered_state)
  /\ __call__ (example_world env_FOO) 0 example_loader
       (ScalarNode "!include" "cfg/${FOO}.yaml") registered_state
     = (Raise OSError, registered_state)
  /\ __call__ (example_world env_config) 0 example_loader
       (ScalarNode "!include" "cfg/${FOO}.yaml") registered_state
     = (Ok (VStr "bar"), registered_state)
  /\ __call__ (example_world env_bad_config) 0 example_loader
       (ScalarNode "!include" "cfg/${FOO}.yaml") registered_state
     = (Raise YAMLError, registered_state).
Proof. repeat split; vm_compute; reflexivity. Qed.

(** C1, as the claim states it, fails: without [config] in the environment
    it is not so that a placeholder whose name is an environment variable is
    replaced by the value of the variable.  The pathname [${FOO}] stays as
    it is although [FOO] is set. *)
Lemma no_substitution_without_config :
  ~ (forall w token v st,
       environ w !! "config" = None ->
       environ w !! token = Some v ->
       substitute_variables w (VStr ("${" +:+ token +:+ "}")) st = (Ok (VStr v), st)).
Proof.
  intros H.
  specialize (H (example_world env_FOO) "FOO" "bar" registered_state eq_refl eq_refl).
  vm_compute in H. discriminate H.
Qed.

(** C1, amended: when [config] is not in the environment no variable is
    substituted, whether the environment has it or not: the pathname is used
    as it was requested, nothing is raised by the substitution and nothing
    is printed.  When [config] is set and [yaml.load] raises on it, the
    include raises that error (a [KeyError] apart, after which the pathname
    is used as it was requested). *)
Theorem substitution_needs_config (w : World) (self : nat) (loader : Loader)
    (pathname recursive encoding : value) (st : State) :
  (environ w !! "config" = None ->
   substitute_variables w pathname st = (Ok pathname, st)
   /\ load w self loader pathname recursive encoding st
      = load_substituted w self loader pathname recursive encoding st)
  /\ (forall raw e,
        environ w !! "config" = Some raw ->
        yaml_load w (TextStream raw) (FullLoader w) = Raise e ->
        e <> KeyError ->
        substitute_variables w pathname st = (Raise e, st)
        /\ load w self loader pathname recursive encoding st = (Raise e, st))
  /\ (forall raw,
        environ w !! "config" = Some raw ->
        yaml_load w (TextStream raw) (FullLoader w) = Raise KeyError ->
        substitute_variables w pathname st = (Ok pathname, st)).
Proof.
  split; [| split].
  - intros H. split.
    + now apply substitute_variables_without_config.
    + rewrite load_stages. unfold bind at 1.
      now rewrite substitute_variables_without_config.
  - intros raw e H1 H2 Hne.
    assert (E : substitute_variables w pathname st = (Raise e, st)).
    { rewrite (substitute_variables_config_error w pathname st raw e H1 H2).
      destruct e; try reflexivity. contradiction. }
    split; [exact E |]. rewrite load_stages. unfold bind at 1. now rewrite E.
  - intros raw H1 H2.
    now rewrite (substitute_variables_config_error w pathname st raw KeyError H1 H2).
Qed.

Lemma substitution_needs_config_witness :
  substitute_variables (example_world env_FOO) (VStr "cfg/${FOO}.yaml") registered_state
  = (Ok (VStr "cfg/${FOO}.yaml"), registered_state)
  /\ load (example_world env_bad_config) 0 example_loader (VStr "cfg/${FOO}.yaml")
       (VBool false) VNone registered_state
     = (Raise YAMLError, registered_state).
Proof.
  split.
  - apply (proj1 (substitution_needs_config (example_world env_FOO) 0 example_loader
             (VStr "cfg/${FOO}.yaml") (VBool false) VNone registered_state)).
    reflexivity.
  - apply (proj1 (proj2 (substitution_needs_config (example_world env_bad_config) 0
             example_loader (VStr "cfg/${FOO}.yaml") (VBool false) VNone registered_state))
             "{" YAMLError).
    + reflexivity.
    + reflexivity.
    + discriminate.
Defined.


Lemma variable_value_config (w : World) (cfg : value) (valueName : string) (st : State) :
  environ w !! valueName = None ->
  variable_value w cfg valueName st
  = match lookup_keys cfg (str_split "." valueName) with
    | Ok x => (Ok x, st)
    | Raise KeyError =>
        (Ok (VStr ""),
         {| objects := objects st;
            yaml_constructors := yaml_constructors st;
            stderr := stderr st ++ ["No value for variable: " +:+ valueName] |})
    | Raise e => (Raise e, st)
    end.
Proof.
  intros H. unfold variable_value, try_except_KeyError, bind, lift, environ_getitem.
  rewrite H. simpl.
  destruct (lookup_keys cfg (str_split "." valueName)) as [x | e]; [reflexivity |].
  now destruct e.
Qed.

Lemma substitute_variable_value (w : World) (cfg s aValue : value) (valueName : string)
    (st st' : State) :
  variable_value w cfg valueName st = (Ok aValue, st') ->
  substitute_variable w cfg s valueName st = (replace_variable w valueName aValue s, st').
Proof.
  intros H. unfold substitute_variable, replace_variable, bind, lift, ret. rewrite H.
  now destruct (re_sub w _ _ _).
Qed.



(** A key that a mapping of the configuration lacks: a line naming the
    variable is printed and the value is the empty string. *)
Lemma missing_key_is_reported (w : World) (cfg : value) (valueName : string) (st : State) :
  environ w !! valueName = None ->
  lookup_keys cfg (str_split "." valueName) = Raise KeyError ->
  variable_value w cfg valueName st
  = (Ok (VStr ""),
     {| objects := objects st;
        yaml_constructors := yaml_constructors st;
        stderr := stderr st ++ ["No value for variable: " +:+ valueName] |}).
Proof.
  intros H1 H2. rewrite variable_value_config by exact H1. now rewrite H2.
Qed.

(** A key asked of a value that is no mapping: the [TypeError] is not
    caught. *)
Lemma subscript_of_non_mapping_raises (w : World) (cfg s : value) (valueName : string)
    (st : State) :
  environ w !! valueName = None ->
  lookup_keys cfg (str_split "." valueName) = Raise TypeError ->
  substitute_variable w cfg s valueName st = (Raise TypeError, st).
Proof.
  intros H1 H2. unfold substitute_variable, bind.
  rewrite variable_value_config by exact H1. now rewrite H2.
Qed.

(** C3: where the code departs from the claim.  With [config] set to
    [db: localhost] the name [db.host] asks the key [host] of a string; the
    [TypeError] leaves [load] and [__call__], nothing is printed and no empty
    string is substituted. *)
Theorem non_mapping_intermediate_raises :
  environ (example_world env_flat_config) !! "db.host" = None
  /\ lookup_keys (VDict [(VStr "db", VStr "localhost")]) (str_split "." "db.host")
     = Raise TypeError
  /\ __call__ (example_world env_flat_config) 0 example_loader
       (ScalarNode "!include" "${db.host}.yaml") registered_state
     = (Raise TypeError, registered_state).
Proof. repeat split; vm_compute; reflexivity. Qed.

(** C4: where the code departs from the claim.  The name is put into the
    pattern of [re.sub] as it is, so the dot of [db.host] stands for any
    character: the value of [db.host] also replaces [${db_host}], whose own
    value is then never put. *)
Theorem dot_in_name_matches_any_character :
  substitute_variables (example_world env_config) (VStr "${db.host}/${db_host}.yaml")
    registered_state
  = (Ok (VStr "localhost/localhost.yaml"), registered_state)
  /\ re.findall os_env_path_matcher "${db.host}/${db_host}.yaml" = ["db.host"; "db_host"]
  /\ re_sub (example_world env_config) "\${db.host}" "localhost" "${db.host}/${db_host}.yaml"
     = Ok "localhost/localhost.yaml"
  /\ re_sub (example_world env_config) "\${3}" "x" "${3}" = Ok "${3}".
Proof. repeat split; vm_compute; reflexivity. Qed.

(** ** The pattern for wildcards *)

Lemma WILDCARDS_REGEX_parsed :
  re.parse "^.*(\*|\?|\[!?.+\]).*$" = re.Parsed WILDCARDS_REGEX.
Proof. reflexivity. Qed.

Lemma os_env_path_matcher_parsed :
  re.parse "\$\{([^}^{]+)\}" = re.Parsed os_env_path_matcher.
Proof. reflexivity. Qed.

Section Engine.

Context {R : Type}.
Implicit Types k : @re.continuation R.

Lemma or_else_is_Some (a b : option R) :
  is_Some (match a with Some x => Some x | None => b end) <-> is_Some a \/ is_Some b.
Proof.
  destruct a as [x |]; split; intros H.
  - left. exact H.
  - eauto.
  - right. exact H.
  - destruct H as [H | H]; [destruct H; discriminate | exact H].
Qed.

Lemma literal_is_Some (c : ascii) pos rest mk k :
  is_Some (re.sre_match (re.Literal c) pos rest mk k) <->
  exists rest', rest = String c rest' /\ is_Some (k (S pos) rest' mk).
Proof.
  simpl. destruct rest as [|a rest'].
  - split; [intros [x H]; discriminate | intros (r & H & _); discriminate].
  - destruct (Ascii.eqb a c) eqn:E.
    + apply Ascii.eqb_eq in E. subst a. split.
      * intros H. now exists rest'.
      * intros (r & H & Hk). now injection H as <-.
    + split; [intros [x H]; discriminate |].
      intros (r & H & _). injection H as -> _. rewrite Ascii.eqb_refl in E. discriminate.
Qed.

(** [.] repeated, once the lower bound is reached: any run of characters
    that are no line breaks may be taken. *)
Lemma dots_is_Some (lo : N) k fuel count last pos rest mk :
  (lo <= count)%N -> String.length rest < fuel -> re.same_pos last pos = false ->
  is_Some (re.max_until (re.sre_match re.AnyChar) lo None k fuel count last pos rest mk) <->
  exists a b, rest = a +:+ b /\ contains_char newline a = false
              /\ is_Some (k (pos + String.length a) b mk).
Proof.
  revert fuel count last pos.
  induction rest as [|c rest IH]; intros fuel count last pos Hlo Hfuel Hlast;
    (destruct fuel as [|fuel]; [simpl in Hfuel; lia |]); simpl re.max_until;
    (replace (count <? lo)%N with false by (symmetry; apply N.ltb_ge; exact Hlo));
    rewrite Hlast; simpl.
  - split.
    + intros H. exists "", "". rewrite Nat.add_0_r. auto.
    + intros (a & b & Hab & _ & Hk).
      destruct a; [| rewrite append_cons in Hab; discriminate].
      rewrite append_nil_l in Hab. subst b. simpl in Hk. now rewrite Nat.add_0_r in Hk.
  - rewrite or_else_is_Some. destruct (Ascii.eqb c newline) eqn:Enl.
    + split.
      * intros [[x H] | H]; [discriminate |].
        exists "", (String c rest). rewrite Nat.add_0_r. auto.
      * intros (a & b & Hab & Hnl & Hk). right.
        destruct a as [|x a].
        -- rewrite append_nil_l in Hab. subst b. simpl in Hk.
           now rewrite Nat.add_0_r in Hk.
        -- rewrite append_cons in Hab. injection Hab as <- _.
           simpl in Hnl. rewrite Enl in Hnl. discriminate.
    + rewrite IH.
      * split.
        -- intros [(a & b & Hab & Hnl & Hk) | H].
           ++ exists (String c a), b. rewrite append_cons, Hab. simpl.
              rewrite Enl, Hnl. repeat split.
              now replace (pos + S (String.length a)) with (S pos + String.length a) by lia.
           ++ exists "", (String c rest). rewrite Nat.add_0_r. auto.
        -- intros (a & b & Hab & Hnl & Hk). destruct a as [|x a].
           ++ right. rewrite append_nil_l in Hab. subst b. simpl in Hk.
              now rewrite Nat.add_0_r in Hk.
           ++ left. rewrite append_cons in Hab. injection Hab as <- Hab.
              simpl in Hnl. apply orb_false_iff in Hnl as [_ Hnl].
              exists a, b. repeat split; [exact Hab | exact Hnl |].
              simpl in Hk.
              now replace (S pos + String.length a) with (pos + S (String.length a)) by lia.
      * lia.
      * simpl in Hfuel. lia.
      * simpl. apply Nat.eqb_neq. lia.
Qed.

Lemma max_until_step body (lo : N) hi k fuel count last pos rest mk :
  re.max_until body lo hi k (S fuel) count last pos rest mk
  = if (count <? lo)%N then
      body pos rest mk (re.max_until body lo hi k fuel (count + 1)%N last)
    else if re.below count hi && negb (re.same_pos last pos) then
      match body pos rest mk (re.max_until body lo hi k fuel (count + 1)%N (Some pos)) with
      | Some x => Some x
      | None => k pos rest mk
      end
    else k pos rest mk.
Proof. reflexivity. Qed.

Lemma sre_match_MaxRepeat (lo : N) hi r pos rest mk k :
  re.sre_match (re.MaxRepeat lo hi r) pos rest mk k
  = re.max_until (re.sre_match r) lo hi k
      (S (S (N.to_nat lo + String.length rest))) 0%N None pos rest mk.
Proof. simpl. now rewrite !Nat.add_succ_r, Nat.add_0_r. Qed.

Lemma sre_match_Seq r1 r2 pos rest mk k :
  re.sre_match (re.Seq r1 r2) pos rest mk k
  = re.sre_match r1 pos rest mk (fun p s m => re.sre_match r2 p s m k).
Proof. reflexivity. Qed.

Lemma sre_match_Branch r1 r2 pos rest mk k :
  re.sre_match (re.Branch r1 r2) pos rest mk k
  = match re.sre_match r1 pos rest mk k with
    | Some x => Some x
    | None => re.sre_match r2 pos rest mk k
    end.
Proof. reflexivity. Qed.

Lemma sre_match_Subpattern g r pos rest mk k :
  re.sre_match (re.Subpattern g r) pos rest mk k
  = re.sre_match r pos rest mk
      (fun p s m => k p s ((g, String.substring 0 (p - pos) rest) :: m)).
Proof. reflexivity. Qed.

Lemma any_char_is_Some pos rest mk k :
  is_Some (re.sre_match re.AnyChar pos rest mk k) <->
  exists c rest', rest = String c rest' /\ Ascii.eqb c newline = false
                  /\ is_Some (k (S pos) rest' mk).
Proof.
  simpl. destruct rest as [|a rest'].
  - split; [intros [x H]; discriminate | intros (c & r & H & _); discriminate].
  - destruct (Ascii.eqb a newline) eqn:E.
    + split; [intros [x H]; discriminate |].
      intros (c & r & H & Hc & _). injection H as <- _. congruence.
    + split.
      * intros H. now exists a, rest'.
      * intros (c & r & H & _ & Hk). now injection H as <- <-.
Qed.

Lemma any_star_is_Some k pos rest mk :
  is_Some (re.sre_match (re.MaxRepeat 0 None re.AnyChar) pos rest mk k) <->
  exists a b, rest = a +:+ b /\ contains_char newline a = false
              /\ is_Some (k (pos + String.length a) b mk).
Proof.
  rewrite sre_match_MaxRepeat. apply dots_is_Some; [lia | simpl; lia | reflexivity].
Qed.

Lemma any_plus_is_Some k pos rest mk :
  is_Some (re.sre_match (re.MaxRepeat 1 None re.AnyChar) pos rest mk k) <->
  exists c a b, rest = String c (a +:+ b) /\ contains_char newline (String c a) = false
                /\ is_Some (k (S pos + String.length a) b mk).
Proof.
  rewrite sre_match_MaxRepeat, max_until_step.
  change (0 <? 1)%N with true. cbv iota. rewrite any_char_is_Some. split.
  - intros (c & rest' & -> & Hc & H).
    apply dots_is_Some in H as (a & b & -> & Hnl & Hk);
      [| lia | simpl; lia | reflexivity].
    exists c, a, b. simpl. now rewrite Hc, Hnl.
  - intros (c & a & b & -> & Hnl & Hk).
    simpl in Hnl. apply orb_false_iff in Hnl as [Hc Hnl].
    exists c, (a +:+ b). repeat split; [exact Hc |].
    apply dots_is_Some; [lia | simpl; lia | reflexivity |]. now exists a, b.
Qed.

Lemma optional_is_Some (c : ascii) k pos rest mk :
  is_Some (re.sre_match (re.MaxRepeat 0 (Some 1%N) (re.Literal c)) pos rest mk k) <->
  (exists rest', rest = String c rest' /\ is_Some (k (S pos) rest' mk))
  \/ is_Some (k pos rest mk).
Proof.
  rewrite sre_match_MaxRepeat, max_until_step.
  change (0 <? 0)%N with false. cbv iota. simpl andb. cbv iota.
  rewrite or_else_is_Some, literal_is_Some.
  split; (intros [(rest' & -> & H) | H]; [left | now right]); exists rest';
    (split; [reflexivity |]).
  - rewrite max_until_step in H. exact H.
  - rewrite max_until_step. exact H.
Qed.

End Engine.


Lemma WILDCARDS_REGEX_shape :
  WILDCARDS_REGEX
  = re.Seq re.AtBeginning
      (re.Seq (re.MaxRepeat 0 None re.AnyChar)
         (re.Seq (re.Subpattern 1 wildcard_group)
            (re.Seq (re.MaxRepeat 0 None re.AnyChar) re.AtEnd))).
Proof. reflexivity. Qed.

Lemma dots_then_bracket_is_Some {R} (k : @re.continuation R) p s m :
  is_Some (re.sre_match
             (re.Seq (re.MaxRepeat 1 None re.AnyChar) (re.Literal "]")) p s m k)
  <-> exists c inside s',
        s = String c inside +:+ String "]" s'
        /\ contains_char newline (String c inside) = false
        /\ is_Some (k (S (S p + String.length inside)) s' m).
Proof.
  rewrite sre_match_Seq, any_plus_is_Some. split.
  - intros (c & a & b & -> & Ha & H).
    apply literal_is_Some in H as (s' & -> & H).
    exists c, a, s'. now rewrite append_cons.
  - intros (c & inside & s' & -> & Ha & H).
    exists c, inside, (String "]" s'). rewrite append_cons. repeat split; [exact Ha |].
    apply literal_is_Some. now exists s'.
Qed.



Lemma re_match_WILDCARDS_REGEX (pathname : string) :
  re.re_match WILDCARDS_REGEX pathname = true <->
  is_Some
    (re.sre_match (re.MaxRepeat 0 None re.AnyChar) 0 pathname [] (fun p1 s1 m1 =>
       re.sre_match wildcard_group p1 s1 m1 (fun p2 s2 m2 =>
         re.sre_match (re.Seq (re.MaxRepeat 0 None re.AnyChar) re.AtEnd) p2 s2
           ((1, String.substring 0 (p2 - p1) s1) :: m2)
           (fun p s m => if false && Nat.eqb p 0 then None else Some (p, s, m))))).
Proof.
  unfold re.re_match, re.match_at. rewrite WILDCARDS_REGEX_shape.
  match goal with
  | |- _ <-> is_Some ?m =>
      change (re.sre_match (re.Seq re.AtBeginning _) 0 pathname [] _) with m;
      destruct m as [x |]
  end.
  - split; intros _; [eexists |]; reflexivity.
  - split; [discriminate |]. intros [x H]. discriminate.
Qed.

Lemma has_wildcard_split (pathname : string) :
  has_wildcard pathname <->
  exists before b,
    pathname = before +:+ b
    /\ ((exists s, b = String "*" s) \/ (exists s, b = String "?" s)
        \/ (exists c inside s, b = String "[" (String c inside +:+ String "]" s))).
Proof.
  unfold has_wildcard. split.
  - intros (before & after & H). exists before.
    destruct H as [-> | [-> | (c & inside & ->)]]; eexists; (split; [reflexivity |]).
    + left. now exists after.
    + right. left. now exists after.
    + right. right. now exists c, inside, after.
  - intros (before & b & -> & H). exists before.
    destruct H as [(s & ->) | [(s & ->) | (c & inside & s & ->)]]; exists s.
    + left. reflexivity.
    + right. left. reflexivity.
    + right. right. exists c, inside. reflexivity.
Qed.



(** ** Names without special characters *)

Lemma parse_plain_char (fuel : nat) (c : ascii) (s : string) (g : nat) (acc : list re.regex) :
  plain c = true ->
  re._parse (S fuel) (String c s) g acc = re._parse fuel s g (re.Literal c :: acc).
Proof.
  intros H.
  destruct c as [[] [] [] [] [] [] [] []]; try discriminate H; reflexivity.
Qed.

Lemma parse_plain (token : string) :
  forall (fuel : nat) (rest : string) (g : nat) (acc : list re.regex),
  all_plain token = true ->
  re._parse (String.length token + fuel) (token +:+ rest) g acc
  = re._parse fuel rest g (rev (literals token) ++ acc).
Proof.
  induction token as [|c token IH]; intros fuel rest g acc H.
  - reflexivity.
  - simpl in H. apply andb_true_iff in H as [Hc H].
    rewrite append_cons. simpl String.length. simpl plus.
    rewrite parse_plain_char by exact Hc. rewrite IH by exact H.
    simpl. now rewrite <- app_assoc.
Qed.

Lemma literals_append (a b : string) :
  literals (a +:+ b) = (literals a ++ literals b)%list.
Proof.
  induction a as [|x a IH]; [reflexivity |].
  rewrite append_cons. simpl. now rewrite IH.
Qed.

Lemma parse_sub_step (fuel : nat) (s : string) (g : nat) :
  re._parse_sub (S fuel) s g
  = match re._parse fuel s g [] with
    | re.Parsed (items, String "|" s1, g1) =>
        match re._parse_sub fuel s1 g1 with
        | re.Parsed (r2, s2, g2) => re.Parsed (re.Branch (re.seq_of items re.Empty) r2, s2, g2)
        | re.ParseError e => re.ParseError e
        | re.Unsupported => re.Unsupported
        end
    | re.Parsed (items, s1, g1) => re.Parsed (re.seq_of items re.Empty, s1, g1)
    | re.ParseError e => re.ParseError e
    | re.Unsupported => re.Unsupported
    end.
Proof. reflexivity. Qed.

(** The pattern made of a name without special character is the sequence of
    the characters of [${name}]. *)
Lemma parse_plain_name (token : string) :
  all_plain token = true ->
  re.read_bounds (token +:+ "}") = None ->
  re.parse ("\${" +:+ token +:+ "}")
  = re.Parsed (re.seq_of (rev (literals ("${" +:+ token +:+ "}"))) re.Empty).
Proof.
  intros Hplain Hbounds. unfold re.parse.
  set (n := String.length token).
  assert (Hlen : 2 * String.length ("\${" +:+ token +:+ "}") + 2
                 = S (S (S (S (n + S (S (n + 4))))))).
  { rewrite !length_append. simpl. fold n. lia. }
  rewrite Hlen.
  change ("\${" +:+ token +:+ "}") with (String "\" (String "$" (String "{" (token +:+ "}")))).
  rewrite parse_sub_step.
  assert (E : re._parse (S (S (S (n + S (S (n + 4))))))
                (String "\" (String "$" (String "{" (token +:+ "}")))) 0 []
              = re.Parsed (rev (literals ("${" +:+ token +:+ "}")), "", 0)).
  { change (re._parse (S (S (S (n + S (S (n + 4))))))
              (String "\" (String "$" (String "{" (token +:+ "}")))) 0 [])
      with (re._parse (S (S (n + S (S (n + 4))))) (String "{" (token +:+ "}")) 0
              [re.Literal "$"]).
    change (re._parse (S (S (n + S (S (n + 4))))) (String "{" (token +:+ "}")) 0
              [re.Literal "$"])
      with (match re.read_bounds (token +:+ "}") with
            | Some (lo, hi, s2) =>
                re.quantify (fun s' acc' => re._parse (S (n + S (S (n + 4)))) s' 0 acc')
                  lo hi s2 [re.Literal "$"]
            | None => re._parse (S (n + S (S (n + 4)))) (token +:+ "}") 0
                        [re.Literal "{"; re.Literal "$"]
            end).
    rewrite Hbounds.
    replace (S (n + S (S (n + 4)))) with (n + S (S (S (n + 4)))) by lia.
    unfold n. rewrite parse_plain by exact Hplain.
    change ("${" +:+ token +:+ "}") with (String "$" (String "{" (token +:+ "}"))).
    simpl literals. rewrite literals_append. simpl rev. rewrite rev_app_distr.
    simpl. rewrite <- !app_assoc. reflexivity. }
  rewrite E. reflexivity.
Qed.

Lemma seq_of_append (a b : list re.regex) (tail : re.regex) :
  re.seq_of (a ++ b) tail = re.seq_of b (re.seq_of a tail).
Proof.
  revert tail. induction a as [|r a IH]; intros tail; [reflexivity |].
  simpl. apply IH.
Qed.

Lemma seq_of_rev (items : list re.regex) (tail : re.regex) :
  re.seq_of (rev items) tail = seq_right items tail.
Proof.
  induction items as [|r items IH]; [reflexivity |].
  simpl. rewrite seq_of_append, IH. simpl.
  destruct (seq_right items tail); reflexivity.
Qed.

Lemma prefix_cons (c a : ascii) (old rest : string) :
  String.prefix (String c old) (String a rest)
  = Ascii.eqb a c && String.prefix old rest.
Proof.
  simpl. destruct (ascii_dec c a) as [-> | Hne].
  - now rewrite Ascii.eqb_refl.
  - destruct (Ascii.eqb a c) eqn:E; [| reflexivity].
    apply Ascii.eqb_eq in E. congruence.
Qed.

Lemma prefix_nil (s : string) : String.prefix "" s = true.
Proof. now destruct s. Qed.

Lemma prefix_append (old rest : string) : String.prefix old (old +:+ rest) = true.
Proof.
  induction old as [|c old IH]; [apply prefix_nil |].
  rewrite append_cons, prefix_cons, Ascii.eqb_refl. exact IH.
Qed.

Lemma prefix_split (old s : string) :
  String.prefix old s = true -> exists rest, s = old +:+ rest.
Proof.
  revert s. induction old as [|c old IH]; intros s H.
  - now exists s.
  - destruct s as [|a s]; [discriminate |].
    rewrite prefix_cons in H. apply andb_true_iff in H as [Ha H].
    apply Ascii.eqb_eq in Ha. subst a. destruct (IH s H) as [rest ->].
    now exists rest.
Qed.

(** A sequence of literal characters matches where the text starts with
    them, in one way. *)
Lemma sre_match_literals {R} (old : string) :
  forall pos rest mk (k : @re.continuation R),
    re.sre_match (seq_right (literals old) re.Empty) pos rest mk k
    = if String.prefix old rest
      then k (pos + String.length old)
             (String.substring (String.length old) (String.length rest - String.length old) rest)
             mk
      else None.
Proof.
  induction old as [|c old IH]; intros pos rest mk k.
  - simpl. rewrite prefix_nil, Nat.add_0_r, Nat.sub_0_r.
    replace (String.substring 0 (String.length rest) rest) with rest; [reflexivity |].
    clear. induction rest as [|a rest IHr]; [reflexivity |]. simpl. now rewrite <- IHr.
  - assert (E : re.sre_match (seq_right (literals (String c old)) re.Empty) pos rest mk k
                = re.sre_match (re.Literal c) pos rest mk
                    (fun p s m => re.sre_match (seq_right (literals old) re.Empty) p s m k)).
    { simpl seq_right. destruct (seq_right (literals old) re.Empty); reflexivity. }
    rewrite E. simpl re.sre_match at 1.
    destruct rest as [|a rest]; [reflexivity |].
    rewrite prefix_cons. destruct (Ascii.eqb a c); [| reflexivity].
    rewrite IH. simpl. now rewrite Nat.add_succ_r.
Qed.

Lemma substring_append (a b : string) :
  String.substring (String.length a) (String.length (a +:+ b) - String.length a) (a +:+ b) = b.
Proof.
  induction a as [|c a IH].
  - rewrite append_nil_l. simpl. rewrite Nat.sub_0_r.
    induction b as [|x b IHb]; [reflexivity |]. simpl. now rewrite IHb.
  - rewrite append_cons. simpl. exact IH.
Qed.

Lemma substring_nothing (s : string) : String.substring 0 0 s = "".
Proof. now destruct s. Qed.

Lemma search_from (r : re.regex) (rest : string) :
  forall pos must_advance b rest_b found,
    re.search r pos rest must_advance = Some (b, rest_b, found) -> pos <= b.
Proof.
  induction rest as [|c rest IH]; intros pos must_advance b rest_b found H; simpl in H.
  - destruct (re.match_at r pos "" must_advance); [| discriminate].
    injection H as <- _ _. lia.
  - destruct (re.match_at r pos (String c rest) must_advance).
    + injection H as <- _ _. lia.
    + apply IH in H. lia.
Qed.

Lemma replace_skipping_skip (old new a b : string) :
  replace_skipping old new (String.length a) (a +:+ b) = replace_skipping old new 0 b.
Proof.
  induction a as [|c a IH]; [reflexivity |].
  rewrite append_cons. simpl. exact IH.
Qed.

Lemma replace_skipping_cons (old new : string) (c : ascii) (s : string) :
  replace_skipping old new 0 (String c s)
  = if String.prefix old (String c s)
    then new +:+ replace_skipping old new (String.length old - 1) s
    else String c (replace_skipping old new 0 s).
Proof. reflexivity. Qed.

Lemma replace_skipping_match (old new rest : string) :
  old <> "" ->
  replace_skipping old new 0 (old +:+ rest) = new +:+ replace_skipping old new 0 rest.
Proof.
  intros Hold. destruct old as [|c old]; [contradiction |].
  pose proof (prefix_append (String c old) rest) as Hp.
  rewrite append_cons in *. rewrite replace_skipping_cons, Hp.
  replace (String.length (String c old) - 1) with (String.length old) by (simpl; lia).
  now rewrite replace_skipping_skip.
Qed.

Section Literal.

Variables (old : string) (repl : string).
Hypothesis old_not_empty : old <> "".

Let r : re.regex := seq_right (literals old) re.Empty.

Lemma match_at_literals (pos : nat) (rest : string) (must_advance : bool) :
  re.match_at r pos rest must_advance
  = if String.prefix old rest
    then Some (pos + String.length old,
               String.substring (String.length old) (String.length rest - String.length old)
                 rest, [])
    else None.
Proof.
  unfold re.match_at, r. rewrite sre_match_literals.
  destruct (String.prefix old rest); [| reflexivity].
  replace (Nat.eqb (pos + String.length old) pos) with false.
  - now rewrite andb_false_r.
  - symmetry. apply Nat.eqb_neq. destruct old; [contradiction | simpl; lia].
Qed.

Lemma sub_from_match (fuel pos : nat) (rest : string) (must_advance : bool) :
  re.sub_from (S fuel) r repl pos (old +:+ rest) must_advance
  = repl +:+ re.sub_from fuel r repl (pos + String.length old) rest false.
Proof.
  simpl re.sub_from.
  assert (E : re.search r pos (old +:+ rest) must_advance
              = Some (pos, old +:+ rest, (pos + String.length old, rest, []))).
  { destruct (old +:+ rest) eqn:Es; simpl; rewrite match_at_literals, <- Es,
      prefix_append, substring_append; reflexivity. }
  rewrite E, Nat.sub_diag, substring_nothing, append_nil_l.
  replace (Nat.eqb (pos + String.length old) pos) with false; [reflexivity |].
  symmetry. apply Nat.eqb_neq. destruct old; [contradiction | simpl; lia].
Qed.

Lemma sub_from_no_match (fuel pos : nat) (c : ascii) (rest : string) (must_advance : bool) :
  String.prefix old (String c rest) = false ->
  re.sub_from (S fuel) r repl pos (String c rest) must_advance
  = String c (re.sub_from (S fuel) r repl (S pos) rest false).
Proof.
  intros H. simpl re.sub_from. simpl re.search at 1.
  rewrite match_at_literals, H.
  destruct (re.search r (S pos) rest false) as [[[b rest_b] [[e rest_e] mk]] |] eqn:E;
    [| reflexivity].
  apply search_from in E.
  replace (b - pos) with (S (b - S pos)) by lia. simpl. now rewrite append_cons.
Qed.

Lemma sub_from_literals (n : nat) :
  forall (s : string) (fuel pos : nat) (must_advance : bool),
    String.length s <= n -> String.length s < fuel ->
    re.sub_from fuel r repl pos s must_advance = replace old repl s.
Proof.
  unfold replace.
  induction n as [|n IH]; intros s fuel pos must_advance Hn Hfuel;
    (destruct fuel as [|fuel]; [lia |]).
  - destruct s; [| simpl in Hn; lia]. simpl.
    rewrite match_at_literals. destruct old; [contradiction | reflexivity].
  - destruct (String.prefix old s) eqn:Hp.
    + destruct (prefix_split _ _ Hp) as [rest ->].
      rewrite sub_from_match.
      assert (Hlen : String.length old > 0) by (destruct old; [contradiction | simpl; lia]).
      rewrite length_append in Hn, Hfuel.
      rewrite IH by lia.
      now rewrite replace_skipping_match.
    + destruct s as [|c s].
      * simpl. rewrite match_at_literals. destruct old; [contradiction | reflexivity].
      * rewrite sub_from_no_match by exact Hp. simpl in Hn, Hfuel.
        rewrite IH by lia. now rewrite replace_skipping_cons, Hp.
Qed.

End Literal.

(** A name without special character, and that is no repetition count, is
    replaced as a text: every [${name}], from left to right. *)
Lemma plain_name_is_replaced_literally (w : World) (token repl s : string) :
  all_plain token = true ->
  re.read_bounds (token +:+ "}") = None ->
  contains_char backslash repl = false ->
  re_sub w ("\${" +:+ token +:+ "}") repl s
  = Ok (replace ("${" +:+ token +:+ "}") repl s).
Proof.
  intros Hplain Hbounds Hrepl. unfold re_sub, re.sub.
  rewrite parse_plain_name by assumption. rewrite Hrepl, seq_of_rev.
  assert (Hold : "${" +:+ token +:+ "}" <> "") by (rewrite append_cons; discriminate).
  f_equal. apply (sub_from_literals _ _ Hold (String.length s)); lia.
Qed.

(** ** Pathnames with and without wildcards *)

(** The loop of [load] over the expansion gives what loading each regular
    file on its own gives, in the order of the expansion. *)
Lemma load_loop (w : World) (loader : Loader) (encoding : value) (paths : list string)
    (acc : list value) :
  rfor_each paths
    (fun result' path =>
       if isfile w path
       then v <~ load_file w loader path encoding ;; Ok (result' ++ [v])%list
       else Ok result') acc
  = (vs <~ load_each w loader encoding (List.filter (isfile w) paths) ;; Ok (acc ++ vs)%list).
Proof.
  revert acc. induction paths as [|path paths IH]; intros acc; simpl.
  - now rewrite app_nil_r.
  - destruct (isfile w path); simpl.
    + destruct (load_file w loader path encoding) as [v | e]; simpl; [| reflexivity].
      rewrite IH.
      destruct (load_each w loader encoding (List.filter (isfile w) paths)); simpl;
        [| reflexivity].
      now rewrite <- app_assoc.
    + apply IH.
Qed.

Lemma load_pathname_wildcard (w : World) (loader : Loader) (pathname : string)
    (recursive encoding : value) :
  re.re_match WILDCARDS_REGEX pathname = true ->
  load_pathname w loader (VStr pathname) recursive encoding
  = (vs <~ load_each w loader encoding (regular_files w pathname recursive) ;;
     Ok (VList vs)).
Proof.
  intros H. unfold load_pathname. rewrite H, load_loop. unfold regular_files.
  now destruct (load_each w loader encoding _).
Qed.










(** When a regular file of the expansion fails to load, so does the
    include. *)
Lemma wildcard_fails_with_a_file (w : World) (loader : Loader) (pathname : string)
    (recursive encoding : value) (e : exn) :
  re.re_match WILDCARDS_REGEX pathname = true ->
  load_each w loader encoding (regular_files w pathname recursive) = Raise e ->
  load_pathname w loader (VStr pathname) recursive encoding = Raise e.
Proof.
  intros Hw H. rewrite load_pathname_wildcard by exact Hw. now rewrite H.
Qed.

(** * Further properties *)

(** ** The resolver objects *)

(** X1: what a setter writes is what the getter of the same object then
    reads; the other attribute of the object, the other objects, the
    registrations and the lines printed are left as they are. *)
Theorem setter_then_getter (self : nat) (o : YamlIncludeConstructor) (v : option string)
    (st : State) :
  objects st !! self = Some o ->
  (let st' := snd (base_dir_setter self v st) in
   base_dir self st' = (Ok v, st')
   /\ encoding self st' = (Ok (_encoding o), st')
   /\ (forall other, other <> self -> objects st' !! other = objects st !! other)
   /\ yaml_constructors st' = yaml_constructors st /\ stderr st' = stderr st)
  /\ (let st' := snd (encoding_setter self v st) in
      encoding self st' = (Ok v, st')
      /\ base_dir self st' = (Ok (_base_dir o), st')
      /\ (forall other, other <> self -> objects st' !! other = objects st !! other)
      /\ yaml_constructors st' = yaml_constructors st /\ stderr st' = stderr st).
Proof.
  intros H. assert (Hlt : self < length (objects st)) by (eapply lookup_lt_Some; eauto).
  unfold base_dir_setter, encoding_setter, base_dir, encoding, setattr, getattr.
  rewrite H. simpl.
  rewrite !list_lookup_insert_eq by exact Hlt.
  repeat split; intros other Hne; now rewrite list_lookup_insert_ne.
Qed.

Lemma setter_then_getter_witness :
  base_dir 0 (snd (base_dir_setter 0 (Some "/etc") registered_state))
  = (Ok (Some "/etc"), snd (base_dir_setter 0 (Some "/etc") registered_state)).
Proof.
  apply (proj1 (setter_then_getter 0 {| _base_dir := None; _encoding := None |}
                  (Some "/etc") registered_state eq_refl)).
Defined.

Lemma add_to_loader_class_success (loader_class : option LoaderClass) (tag : option string)
    (kwargs : Kwargs) (st st' : State) (r : nat) :
  add_to_loader_class loader_class tag kwargs st = (Ok r, st') ->
  r = length (objects st)
  /\ objects st'
     = (objects st ++ [{| _base_dir := kw_base_dir kwargs;
                         _encoding := kw_encoding kwargs |}])%list
  /\ stderr st' = stderr st
  /\ exists name,
       startswith "!" name = true
       /\ yaml_constructors st' = (loader_class, name, r) :: yaml_constructors st.
Proof.
  unfold add_to_loader_class.
  set (name := if String.eqb (strip _) "" then DEFAULT_TAG_NAME else strip _).
  destruct (startswith "!" name) eqn:E; simpl; [| discriminate].
  destruct loader_class; intros H; injection H as <- <-; simpl;
    repeat split; exists name; now split.
Qed.

(** X15: two registrations give two different objects, each with the base
    directory and the encoding it was created with; what is later written
    to one of them is not seen in the other, and every tag registered starts
    with [!]. *)
Theorem registrations_are_independent
    (class1 class2 : option LoaderClass) (tag1 tag2 : option string)
    (kwargs1 kwargs2 : Kwargs) (st st1 st2 : State) (r1 r2 : nat) :
  add_to_loader_class class1 tag1 kwargs1 st = (Ok r1, st1) ->
  add_to_loader_class class2 tag2 kwargs2 st1 = (Ok r2, st2) ->
  r1 <> r2
  /\ base_dir r1 st2 = (Ok (kw_base_dir kwargs1), st2)
  /\ encoding r1 st2 = (Ok (kw_encoding kwargs1), st2)
  /\ base_dir r2 st2 = (Ok (kw_base_dir kwargs2), st2)
  /\ encoding r2 st2 = (Ok (kw_encoding kwargs2), st2)
  /\ (forall v,
        fst (base_dir r1 (snd (base_dir_setter r2 v st2))) = Ok (kw_base_dir kwargs1)
        /\ fst (encoding r1 (snd (encoding_setter r2 v st2))) = Ok (kw_encoding kwargs1))
  /\ (exists name1 name2,
        startswith "!" name1 = true /\ startswith "!" name2 = true
        /\ yaml_constructors st2
           = (class2, name2, r2) :: (class1, name1, r1) :: yaml_constructors st).
Proof.
  intros H1 H2.
  apply add_to_loader_class_success in H1 as (-> & Ho1 & _ & name1 & Hn1 & Hc1).
  apply add_to_loader_class_success in H2 as (-> & Ho2 & _ & name2 & Hn2 & Hc2).
  assert (Hlen : length (objects st1) = S (length (objects st)))
    by (rewrite Ho1, length_app; simpl; lia).
  assert (L1 : objects st2 !! length (objects st)
               = Some {| _base_dir := kw_base_dir kwargs1; _encoding := kw_encoding kwargs1 |}).
  { rewrite Ho2, lookup_app_l by lia. rewrite Ho1, lookup_app_r by lia.
    now rewrite Nat.sub_diag. }
  assert (L2 : objects st2 !! length (objects st1)
               = Some {| _base_dir := kw_base_dir kwargs2; _encoding := kw_encoding kwargs2 |}).
  { rewrite Ho2, lookup_app_r by lia. now rewrite Nat.sub_diag. }
  split; [lia |].
  unfold base_dir, encoding, getattr. rewrite L1, L2.
  repeat split.
  - unfold base_dir_setter, setattr. rewrite L2. simpl.
    rewrite list_lookup_insert_ne by lia. now rewrite L1.
  - unfold encoding_setter, setattr. rewrite L2. simpl.
    rewrite list_lookup_insert_ne by lia. now rewrite L1.
  - exists name1, name2. rewrite Hc2, Hc1. now repeat split.
Qed.

Lemma registrations_are_independent_witness :
  fst (base_dir 0
         (snd (base_dir_setter 1 (Some "/srv")
                 {| objects := [{| _base_dir := Some "/etc"; _encoding := None |};
                                {| _base_dir := None; _encoding := Some "latin-1" |}];
                    yaml_constructors := [(Some yaml_SafeLoader, "!inc", 1);
                                          (None, "!include", 0)];
                    stderr := [] |})))
  = Ok (Some "/etc").
Proof.
  apply (registrations_are_independent None (Some yaml_SafeLoader) None (Some "!inc")
           {| kw_base_dir := Some "/etc"; kw_encoding := None |}
           {| kw_base_dir := None; kw_encoding := Some "latin-1" |}
           initial_state
           {| objects := [{| _base_dir := Some "/etc"; _encoding := None |}];
              yaml_constructors := [(None, "!include", 0)];
              stderr := [] |}
           _ 0 1 eq_refl eq_refl).
Defined.

(** ** The arguments of an include *)

Lemma forallb_is_parameter_false (kwargs : list (value * value)) (k v : value) :
  In (k, v) kwargs ->
  k <> VStr "pathname" -> k <> VStr "recursive" -> k <> VStr "encoding" ->
  forallb (fun kv => is_parameter (fst kv)) kwargs = false.
Proof.
  intros Hin H1 H2 H3.
  destruct (forallb _ kwargs) eqn:E; [| reflexivity].
  pose proof (proj1 (forallb_is_parameter kwargs) E k v Hin) as [-> | [-> | ->]];
    contradiction.
Qed.

(** X6: a sequence node with no element or with more than three, a mapping
    node with a key that names no parameter of [load], and a mapping node
    without the key [pathname] raise [TypeError] before anything is read or
    printed; an error of the loader while it constructs the arguments is
    raised as it is. *)
Theorem call_rejects_wrong_arguments (w : World) (self : nat) (loader : Loader)
    (st : State) (tag : string) :
  (forall children args,
     construct_sequence w loader children = Ok args ->
     length args = 0 \/ 3 < length args ->
     __call__ w self loader (SequenceNode tag children) st = (Raise TypeError, st))
  /\ (forall pairs kwargs k v,
        construct_mapping w loader pairs = Ok kwargs ->
        In (k, v) kwargs ->
        k <> VStr "pathname" -> k <> VStr "recursive" -> k <> VStr "encoding" ->
        __call__ w self loader (MappingNode tag pairs) st = (Raise TypeError, st))
  /\ (forall pairs kwargs,
        construct_mapping w loader pairs = Ok kwargs ->
        dict_get kwargs "pathname" = None ->
        __call__ w self loader (MappingNode tag pairs) st = (Raise TypeError, st))
  /\ (forall children e,
        construct_sequence w loader children = Raise e ->
        __call__ w self loader (SequenceNode tag children) st = (Raise e, st))
  /\ (forall pairs e,
        construct_mapping w loader pairs = Raise e ->
        __call__ w self loader (MappingNode tag pairs) st = (Raise e, st)).
Proof.
  repeat split.
  - intros children args H Hlen. unfold __call__, bind, lift. rewrite H.
    destruct args as [|p [|r [|e [|x args]]]]; simpl in Hlen; try reflexivity; lia.
  - intros pairs kwargs k v H Hin H1 H2 H3. unfold __call__, bind, lift. rewrite H.
    unfold load_kwargs. now rewrite (forallb_is_parameter_false kwargs k v).
  - intros pairs kwargs H Hp. unfold __call__, bind, lift. rewrite H.
    unfold load_kwargs. rewrite Hp. now destruct (forallb _ kwargs).
  - intros children e H. unfold __call__, bind, lift. now rewrite H.
  - intros pairs e H. unfold __call__, bind, lift. now rewrite H.
Qed.

Lemma call_rejects_wrong_arguments_witness :
  __call__ (example_world env_config) 0 example_loader
    (SequenceNode "!include" []) registered_state
  = (Raise TypeError, registered_state)
  /\ __call__ (example_world env_config) 0 example_loader
       (MappingNode "!include"
          [(ScalarNode "" "pathname", ScalarNode "" "conf/b.txt");
           (ScalarNode "" "mode", ScalarNode "" "r")])
       registered_state
     = (Raise TypeError, registered_state)
  /\ __call__ (example_world env_config) 0 example_loader
       (MappingNode "!include" [(ScalarNode "" "encoding", ScalarNode "" "utf-8")])
       registered_state
     = (Raise TypeError, registered_state).
Proof.
  pose proof (call_rejects_wrong_arguments (example_world env_config) 0 example_loader
                registered_state "!include") as (H1 & H2 & H3 & _).
  split; [| split].
  - apply (H1 [] []); [reflexivity | left; reflexivity].
  - apply (H2 _ [(VStr "pathname", VStr "conf/b.txt"); (VStr "mode", VStr "r")]
             (VStr "mode") (VStr "r")).
    + reflexivity.
    + right. left. reflexivity.
    + discriminate.
    + discriminate.
    + discriminate.
  - apply (H3 _ [(VStr "encoding", VStr "utf-8")]); reflexivity.
Defined.

Lemma effective_encoding_value (self : nat) (o : YamlIncludeConstructor) (request : value)
    (st : State) :
  objects st !! self = Some o ->
  effective_encoding self request st = (Ok (resolved_encoding o request), st).
Proof.
  intros Ho. unfold effective_encoding, resolved_encoding, bind, getattr, ret.
  destruct (truthy request); simpl; [reflexivity |]. rewrite Ho.
  destruct (_encoding o) as [e |]; simpl; [| reflexivity].
  now destruct (String.eqb e "").
Qed.

Lemma under_base_dir_value (self : nat) (o : YamlIncludeConstructor) (pathname : value)
    (st : State) :
  objects st !! self = Some o ->
  under_base_dir self pathname st
  = (if truthy_opt (_base_dir o)
     then os_path_join (default "" (_base_dir o)) pathname
     else Ok pathname, st).
Proof.
  intros Ho. unfold under_base_dir, bind, getattr, lift, ret. rewrite Ho.
  now destruct (truthy_opt (_base_dir o)).
Qed.

Lemma load_substituted_value (w : World) (self : nat) (o : YamlIncludeConstructor)
    (loader : Loader) (pathname recursive request : value) (st : State) :
  objects st !! self = Some o ->
  load_substituted w self loader pathname recursive request st
  = (joined <~ (if truthy_opt (_base_dir o)
                then os_path_join (default "" (_base_dir o)) pathname
                else Ok pathname) ;;
     load_pathname w loader joined recursive (resolved_encoding o request), st).
Proof.
  intros Ho. unfold load_substituted, bind.
  rewrite (effective_encoding_value self o request st Ho).
  rewrite (under_base_dir_value self o pathname st Ho).
  now destruct (if truthy_opt (_base_dir o) then _ else _).
Qed.

(** X7: a pathname that is no string loads nothing.  Where [config] is not
    set or is parsed, [load] raises [TypeError] and leaves the state as it
    is, whatever the base directory and the encoding are. *)
Theorem pathname_must_be_a_string (w : World) (self : nat) (o : YamlIncludeConstructor)
    (loader : Loader) (pathname recursive encoding : value) (st : State) :
  (forall s, pathname <> VStr s) ->
  objects st !! self = Some o ->
  (environ w !! "config" = None
   \/ exists raw cfg,
        environ w !! "config" = Some raw
        /\ yaml_load w (TextStream raw) (FullLoader w) = Ok cfg) ->
  load w self loader pathname recursive encoding st = (Raise TypeError, st).
Proof.
  intros Hp Ho Hconfig.
  assert (Hsub : substitute_variables w pathname st = (Ok pathname, st)
                 \/ substitute_variables w pathname st = (Raise TypeError, st)).
  { destruct Hconfig as [H | (raw & cfg & H1 & H2)].
    - left. now apply substitute_variables_without_config.
    - right. unfold substitute_variables, try_except_KeyError, bind, lift, environ_getitem.
      rewrite H1, H2. destruct pathname; try reflexivity. now destruct (Hp s). }
  rewrite load_stages. unfold bind at 1.
  destruct Hsub as [-> | ->]; [| reflexivity].
  rewrite (load_substituted_value w self o loader pathname recursive encoding st Ho).
  f_equal. destruct pathname; try (now destruct (truthy_opt (_base_dir o))).
  now destruct (Hp s).
Qed.

Lemma pathname_must_be_a_string_witness :
  load (example_world env_config) 0 example_loader (VInt 1) (VBool false) VNone
    registered_state
  = (Raise TypeError, registered_state).
Proof.
  apply (pathname_must_be_a_string (example_world env_config) 0
           {| _base_dir := None; _encoding := None |}).
  - discriminate.
  - reflexivity.
  - right. eexists _, _. split; reflexivity.
Defined.

(** ** The version of Python and [recursive] *)

Lemma version_comparison_below_100 :
  forallb
    (fun n =>
       Bool.eqb
         (String.leb "3.5"
            ("3." +:+ NilZero.string_of_uint (N.to_uint (N.of_nat n))))
         ((5 <=? n) && (n <=? 9) || (50 <=? n))%nat)
    (seq 0 100) = true.
Proof. vm_compute. reflexivity. Qed.

(** X5: [recursive] reaches [iglob] only when the version of Python,
    written as [major.minor], is not below [3.5] as a string.  For Python 3
    with a minor version below 100 this is so for the minor versions 5 to 9
    and from 50 on: from Python 3.10 to 3.49, as below 3.5, the pattern is
    expanded without [recursive], whatever the request says. *)
Theorem recursive_depends_on_version_string (w : World) (minor : N) (pathname : string)
    (recursive : value) :
  (minor < 100)%N ->
  expand (with_version w 3 minor) pathname recursive
  = iglob w pathname
      (truthy recursive && ((5 <=? minor) && (minor <=? 9) || (50 <=? minor))%N).
Proof.
  intros Hlt. unfold expand, PYTHON_MAYOR_MINOR. simpl.
  pose proof version_comparison_below_100 as H.
  rewrite forallb_forall in H.
  specialize (H (N.to_nat minor)).
  rewrite N2Nat.id in H.
  assert (Hin : In (N.to_nat minor) (seq 0 100)) by (apply in_seq; lia).
  apply H, Bool.eqb_prop in Hin.
  change (String.leb "3.5" ("3" +:+ "." +:+ NilZero.string_of_uint (N.to_uint minor)))
    with (String.leb "3.5" ("3." +:+ NilZero.string_of_uint (N.to_uint minor))).
  rewrite Hin.
  replace ((5 <=? N.to_nat minor)%nat) with (5 <=? minor)%N
    by (destruct (N.leb_spec 5 minor), (Nat.leb_spec 5 (N.to_nat minor)); lia).
  replace ((N.to_nat minor <=? 9)%nat) with (minor <=? 9)%N
    by (destruct (N.leb_spec minor 9), (Nat.leb_spec (N.to_nat minor) 9); lia).
  replace ((50 <=? N.to_nat minor)%nat) with (50 <=? minor)%N
    by (destruct (N.leb_spec 50 minor), (Nat.leb_spec 50 (N.to_nat minor)); lia).
  destruct ((5 <=? minor) && (minor <=? 9) || (50 <=? minor))%N.
  - now rewrite andb_true_r.
  - now rewrite andb_false_r.
Qed.

Lemma recursive_depends_on_version_string_witness :
  expand (with_version (example_world env_config) 3 12) "conf/**" (VBool true)
  = iglob (example_world env_config) "conf/**" false.
Proof.
  apply (recursive_depends_on_version_string (example_world env_config) 12 "conf/**"
           (VBool true)).
  reflexivity.
Defined.

(** ** The encoding and the base directory *)

Lemma load_value (w : World) (self : nat) (o : YamlIncludeConstructor) (loader : Loader)
    (requested substituted recursive request : value) (st st1 : State) :
  objects st !! self = Some o ->
  substitute_variables w requested st = (Ok substituted, st1) ->
  load w self loader requested recursive request st
  = (joined <~ (if truthy_opt (_base_dir o)
                then os_path_join (default "" (_base_dir o)) substituted
                else Ok substituted) ;;
     load_pathname w loader joined recursive (resolved_encoding o request), st1).
Proof.
  intros Ho Hsub.
  assert (Ho1 : objects st1 !! self = Some o).
  { pose proof (preserves_substitute_variables w requested st) as E.
    rewrite Hsub in E. simpl in E. now rewrite E. }
  rewrite load_stages. unfold bind at 1. rewrite Hsub.
  now apply load_substituted_value.
Qed.

(** X2: the files of an include are opened with the encoding of the request
    when this is true; with the encoding of the resolver when the request
    has none, or one that is false such as the empty string, and the
    resolver has one that is not empty; and with [utf-8] otherwise. *)
Theorem encoding_resolution_order (w : World) (self : nat) (o : YamlIncludeConstructor)
    (loader : Loader) (requested substituted recursive request : value)
    (st st1 : State) :
  objects st !! self = Some o ->
  substitute_variables w requested st = (Ok substituted, st1) ->
  exists encoding,
    load w self loader requested recursive request st
    = (joined <~ fst (under_base_dir self substituted st) ;;
       load_pathname w loader joined recursive encoding, st1)
    /\ (truthy request = true -> encoding = request)
    /\ (forall e,
          truthy request = false -> _encoding o = Some e -> e <> "" ->
          encoding = VStr e)
    /\ (truthy request = false -> _encoding o = None \/ _encoding o = Some "" ->
        encoding = VStr DEFAULT_ENCODING).
Proof.
  intros Ho Hsub. exists (resolved_encoding o request).
  rewrite (load_value w self o loader requested substituted recursive request st st1 Ho Hsub).
  rewrite (under_base_dir_value self o substituted st Ho). simpl.
  unfold resolved_encoding. repeat split.
  - now intros ->.
  - intros e -> -> Hne. destruct (String.eqb e "") eqn:E; [| reflexivity].
    apply String.eqb_eq in E. contradiction.
  - intros -> [-> | ->]; reflexivity.
Qed.

Lemma encoding_resolution_order_witness :
  exists encoding,
    load (example_world env_FOO) 0 example_loader (VStr "conf/b.txt") (VBool false)
      (VStr "") registered_state
    = (joined <~ fst (under_base_dir 0 (VStr "conf/b.txt") registered_state) ;;
       load_pathname (example_world env_FOO) example_loader joined (VBool false) encoding,
       registered_state)
    /\ encoding = VStr "utf-8".
Proof.
  destruct (encoding_resolution_order (example_world env_FOO) 0
              {| _base_dir := None; _encoding := None |} example_loader
              (VStr "conf/b.txt") (VStr "conf/b.txt") (VBool false) (VStr "")
              registered_state registered_state eq_refl eq_refl)
    as (encoding & H1 & _ & _ & H2).
  exists encoding. split; [exact H1 |]. apply H2; [reflexivity | left; reflexivity].
Defined.

(** X3: the pathname is put under the base directory of the resolver with
    one [/] between them, which is not added when the base directory ends
    with one; a pathname that starts with [/] is used as it is, and so is
    every pathname when the base directory is not set or empty. *)
Theorem pathname_under_base_dir (self : nat) (o : YamlIncludeConstructor) (pathname : string)
    (st : State) :
  objects st !! self = Some o ->
  (startswith "/" pathname = true ->
   under_base_dir self (VStr pathname) st = (Ok (VStr pathname), st))
  /\ (_base_dir o = None \/ _base_dir o = Some "" ->
      under_base_dir self (VStr pathname) st = (Ok (VStr pathname), st))
  /\ (forall base,
        _base_dir o = Some base -> base <> "" -> startswith "/" pathname = false ->
        under_base_dir self (VStr pathname) st
        = (Ok (VStr (base +:+ (if endswith "/" base then "" else "/") +:+ pathname)), st)).
Proof.
  intros Ho. rewrite (under_base_dir_value self o (VStr pathname) st Ho).
  repeat split.
  - intros Habs. destruct (truthy_opt (_base_dir o)); [| reflexivity].
    simpl. now rewrite Habs.
  - intros [-> | ->]; reflexivity.
  - intros base -> Hne Hrel. simpl.
    destruct (String.eqb base "") eqn:E; [apply String.eqb_eq in E; contradiction |].
    simpl. rewrite Hrel. now destruct (endswith "/" base).
Qed.

Lemma pathname_under_base_dir_witness :
  under_base_dir 0 (VStr "/abs/a.yml")
    {| objects := [{| _base_dir := Some "/etc"; _encoding := None |}];
       yaml_constructors := []; stderr := [] |}
  = (Ok (VStr "/abs/a.yml"),
     {| objects := [{| _base_dir := Some "/etc"; _encoding := None |}];
        yaml_constructors := []; stderr := [] |})
  /\ under_base_dir 0 (VStr "a.yml")
       {| objects := [{| _base_dir := Some "/etc"; _encoding := None |}];
          yaml_constructors := []; stderr := [] |}
     = (Ok (VStr "/etc/a.yml"),
        {| objects := [{| _base_dir := Some "/etc"; _encoding := None |}];
           yaml_constructors := []; stderr := [] |}).
Proof.
  pose proof (pathname_under_base_dir 0 {| _base_dir := Some "/etc"; _encoding := None |}
                "/abs/a.yml"
                {| objects := [{| _base_dir := Some "/etc"; _encoding := None |}];
                   yaml_constructors := []; stderr := [] |} eq_refl) as (H1 & _ & _).
  pose proof (pathname_under_base_dir 0 {| _base_dir := Some "/etc"; _encoding := None |}
                "a.yml"
                {| objects := [{| _base_dir := Some "/etc"; _encoding := None |}];
                   yaml_constructors := []; stderr := [] |} eq_refl) as (_ & _ & H3).
  split.
  - apply H1. reflexivity.
  - apply (H3 "/etc"); [reflexivity | discriminate | reflexivity].
Defined.

(** X13: what is written to the resolver through its setters is what the
    next include uses: after a base directory is set, the pathname is
    joined to it; after an encoding is set, a request without encoding opens
    its files with it. *)
Theorem setter_then_load (w : World) (self : nat) (o : YamlIncludeConstructor)
    (loader : Loader) (requested recursive request : value) (substituted : string)
    (st : State) :
  objects st !! self = Some o ->
  (forall base st1,
     base <> "" ->
     substitute_variables w requested (snd (base_dir_setter self (Some base) st))
     = (Ok (VStr substituted), st1) ->
     load w self loader requested recursive request
       (snd (base_dir_setter self (Some base) st))
     = (joined <~ os_path_join base (VStr substituted) ;;
        load_pathname w loader joined recursive (resolved_encoding o request), st1))
  /\ (forall e st1,
        e <> "" -> truthy request = false ->
        substitute_variables w requested (snd (encoding_setter self (Some e) st))
        = (Ok (VStr substituted), st1) ->
        load w self loader requested recursive request
          (snd (encoding_setter self (Some e) st))
        = (joined <~ fst (under_base_dir self (VStr substituted) st) ;;
           load_pathname w loader joined recursive (VStr e), st1)).
Proof.
  intros Ho.
  assert (Hlt : self < length (objects st)) by (eapply lookup_lt_Some; eauto).
  split.
  - intros base st1 Hne Hsub.
    assert (Ho' : objects (snd (base_dir_setter self (Some base) st)) !! self
                  = Some {| _base_dir := Some base; _encoding := _encoding o |}).
    { unfold base_dir_setter, setattr. rewrite Ho. simpl.
      now apply list_lookup_insert_eq. }
    rewrite (load_value w self _ loader requested (VStr substituted) recursive request
               _ st1 Ho' Hsub).
    unfold truthy_opt, _base_dir.
    destruct (String.eqb base "") eqn:E; [apply String.eqb_eq in E; contradiction |].
    reflexivity.
  - intros e st1 Hne Hfalse Hsub.
    assert (Ho' : objects (snd (encoding_setter self (Some e) st)) !! self
                  = Some {| _base_dir := _base_dir o; _encoding := Some e |}).
    { unfold encoding_setter, setattr. rewrite Ho. simpl.
      now apply list_lookup_insert_eq. }
    rewrite (load_value w self _ loader requested (VStr substituted) recursive request
               _ st1 Ho' Hsub).
    rewrite (under_base_dir_value self o (VStr substituted) st Ho).
    unfold resolved_encoding. rewrite Hfalse. simpl.
    destruct (String.eqb e "") eqn:E; [apply String.eqb_eq in E; contradiction |].
    reflexivity.
Qed.

Lemma setter_then_load_witness :
  load (example_world env_FOO) 0 example_loader (VStr "a.yml") (VBool false) VNone
    (snd (base_dir_setter 0 (Some "conf") registered_state))
  = (Ok (VDict [(VStr "a", VInt 1)]),
     snd (base_dir_setter 0 (Some "conf") registered_state)).
Proof.
  rewrite (proj1 (setter_then_load (example_world env_FOO) 0
                    {| _base_dir := None; _encoding := None |} example_loader
                    (VStr "a.yml") (VBool false) VNone "a.yml" registered_state eq_refl)
             "conf" (snd (base_dir_setter 0 (Some "conf") registered_state))).
  - reflexivity.
  - discriminate.
  - reflexivity.
Defined.

(** ** Wildcards *)

Lemma append_assoc (a b c : string) : (a +:+ b) +:+ c = a +:+ (b +:+ c).
Proof.
  induction a as [|x a IH]; [now rewrite !append_nil_l |].
  now rewrite !append_cons, IH.
Qed.







(** X14: a wildcard include gives no partial list: when a regular file of
    the expansion fails to load and those before it load, the include
    raises the error of this file, whatever comes after it. *)
Theorem first_failing_file_aborts (w : World) (loader : Loader) (pathname : string)
    (recursive encoding : value) (good : list string) (bad : string) (rest : list string)
    (vs : list value) (e : exn) :
  re.re_match WILDCARDS_REGEX pathname = true ->
  List.filter (isfile w) (expand w pathname recursive) = (good ++ bad :: rest)%list ->
  Forall2 (fun path v => load_file w loader path encoding = Ok v) good vs ->
  load_file w loader bad encoding = Raise e ->
  load_pathname w loader (VStr pathname) recursive encoding = Raise e.
Proof.
  intros Hw Hsplit Hgood Hbad. rewrite load_pathname_wildcard by exact Hw.
  unfold regular_files. rewrite Hsplit. clear Hsplit.
  induction Hgood as [| path v good vs Hv _ IH]; simpl.
  - now rewrite Hbad.
  - rewrite Hv. simpl.
    destruct (load_each w loader encoding (good ++ bad :: rest)); [discriminate |].
    simpl in IH |- *. exact IH.
Qed.

Lemma first_failing_file_aborts_witness :
  load_pathname (example_world_undecodable env_FOO) example_loader (VStr "conf/*")
    (VBool false) (VStr "utf-8")
  = Raise UnicodeError.
Proof.
  apply (first_failing_file_aborts (example_world_undecodable env_FOO) example_loader
           "conf/*" (VBool false) (VStr "utf-8") ["conf/a.yml"] "conf/b.txt" []
           [VDict [(VStr "a", VInt 1)]] UnicodeError).
  - reflexivity.
  - reflexivity.
  - repeat constructor.
  - reflexivity.
Defined.

(** ** The pattern of the wildcards *)

Lemma at_end_true (s : string) :
  re.at_end s = true <-> s = "" \/ s = String newline "".
Proof.
  destruct s as [|c [|d s]]; simpl.
  - split; auto.
  - rewrite Ascii.eqb_eq. split.
    + intros ->. now right.
    + intros [H | H]; [discriminate | now injection H].
  - split; [discriminate |]. intros [H | H]; discriminate.
Qed.

(** [.*$] and what it matches: the rest of a line, and the line break that
    ends the text if there is one. *)
Lemma line_end_is_Some {R} (k : @re.continuation R) pos rest mk :
  (forall p s m, is_Some (k p s m)) ->
  is_Some (re.sre_match (re.Seq (re.MaxRepeat 0 None re.AnyChar) re.AtEnd) pos rest mk k) <->
  exists a, contains_char newline a = false
            /\ (rest = a \/ rest = a +:+ String newline "").
Proof.
  intros Hk. rewrite sre_match_Seq, any_star_is_Some. split.
  - intros (a & b & -> & Ha & H). exists a. split; [exact Ha |].
    simpl in H. destruct (re.at_end b) eqn:E; [| destruct H; discriminate].
    apply at_end_true in E as [-> | ->]; [left; now rewrite append_nil_r | now right].
  - intros (a & Ha & [-> | ->]).
    + exists a, "". rewrite append_nil_r. repeat split; [exact Ha |]. simpl. apply Hk.
    + exists a, (String newline ""). repeat split; [exact Ha |]. simpl. apply Hk.
Qed.

(** The group of [WILDCARDS_REGEX] and what it matches, for a rest of the
    pattern whose success depends on the text left only. *)
Lemma wildcard_group_is_Some {R} (k : @re.continuation R) (Q : string -> Prop)
    pos rest mk :
  (forall p s m, is_Some (k p s m) <-> Q s) ->
  is_Some (re.sre_match wildcard_group pos rest mk k) <->
  (exists s, rest = String "*" s /\ Q s) \/ (exists s, rest = String "?" s /\ Q s)
  \/ (exists c inside s, rest = String "[" (String c inside +:+ String "]" s)
        /\ contains_char newline (String c inside) = false /\ Q s).
Proof.
  intros Hk. unfold wildcard_group.
  rewrite !sre_match_Branch, !or_else_is_Some, sre_match_Seq, !literal_is_Some. split.
  - intros [(s & -> & H) | [(s & -> & H) | (s1 & -> & H)]].
    + left. exists s. split; [reflexivity | now apply Hk in H].
    + right. left. exists s. split; [reflexivity | now apply Hk in H].
    + right. right. rewrite sre_match_Seq in H.
      apply optional_is_Some in H as [(s2 & -> & H) | H].
      * apply dots_then_bracket_is_Some in H as (c & inside & s' & -> & Hin & H).
        exists "!"%char, (String c inside), s'. rewrite append_cons.
        repeat split; [| now apply Hk in H].
        change (contains_char newline (String "!" (String c inside)))
          with (Ascii.eqb "!" newline || contains_char newline (String c inside)).
        now rewrite Hin.
      * apply dots_then_bracket_is_Some in H as (c & inside & s' & -> & Hin & H).
        exists c, inside, s'. repeat split; [exact Hin | now apply Hk in H].
  - intros [(s & -> & H) | [(s & -> & H) | (c & inside & s & -> & Hin & H)]].
    + left. exists s. split; [reflexivity | now apply Hk].
    + right. left. exists s. split; [reflexivity | now apply Hk].
    + right. right. eexists. split; [reflexivity |].
      rewrite sre_match_Seq. apply optional_is_Some. right.
      apply dots_then_bracket_is_Some.
      exists c, inside, s. repeat split; [exact Hin | now apply Hk].
Qed.

(** X16: [WILDCARDS_REGEX] matches the pathnames that are one line with a
    wildcard in it ([*], [?], or a bracket that is closed after at least
    one character), and these followed by one line break; a line break
    anywhere else makes the pathname that of a single file. *)
Theorem WILDCARDS_REGEX_one_line (pathname : string) :
  re.re_match WILDCARDS_REGEX pathname = true <->
  exists line,
    has_wildcard line /\ contains_char newline line = false
    /\ (pathname = line \/ pathname = line +:+ String newline "").
Proof.
  rewrite re_match_WILDCARDS_REGEX, any_star_is_Some.
  set (Q := fun s : string =>
              exists t, contains_char newline t = false
                        /\ (s = t \/ s = t +:+ String newline "")).
  assert (Hk : forall (p1 : nat) (s1 : string) p s m,
             is_Some (re.sre_match (re.Seq (re.MaxRepeat 0 None re.AnyChar) re.AtEnd) p s
                        ((1, String.substring 0 (p - p1) s1) :: m)
                        (fun p s m => if false && Nat.eqb p 0 then None
                                      else Some (p, s, m))) <-> Q s).
  { intros p1 s1 p s m. apply line_end_is_Some. intros. eexists. reflexivity. }
  split.
  - intros (a & b & -> & Ha & H).
    apply (wildcard_group_is_Some _ Q) in H; [| intros; apply Hk].
    destruct H as [(s & -> & t & Ht & Hs) | [(s & -> & t & Ht & Hs)
                  | (c & inside & s & -> & Hin & t & Ht & Hs)]].
    + exists (a +:+ String "*" t). repeat split.
      * exists a, t. now left.
      * rewrite contains_char_append, Ha. simpl. exact Ht.
      * destruct Hs as [-> | ->]; [now left | right].
        now repeat (rewrite append_assoc || rewrite append_cons).
    + exists (a +:+ String "?" t). repeat split.
      * exists a, t. right. now left.
      * rewrite contains_char_append, Ha. simpl. exact Ht.
      * destruct Hs as [-> | ->]; [now left | right].
        now repeat (rewrite append_assoc || rewrite append_cons).
    + exists (a +:+ String "[" (String c inside +:+ String "]" t)). repeat split.
      * exists a, t. right. right. now exists c, inside.
      * rewrite contains_char_append, Ha.
        change (contains_char newline (String "[" (String c inside +:+ String "]" t)))
          with (Ascii.eqb "[" newline
                || contains_char newline (String c inside +:+ String "]" t)).
        rewrite contains_char_append, Hin. simpl. exact Ht.
      * destruct Hs as [-> | ->]; [now left | right].
        now repeat (rewrite append_assoc || rewrite append_cons).
  - intros (line & Hw & Hnl & Hp).
    apply has_wildcard_split in Hw as (before & b & -> & Hb).
    rewrite contains_char_append in Hnl. apply orb_false_iff in Hnl as [Ha Hnl].
    exists before, (if String.eqb pathname (before +:+ b) then b
                    else b +:+ String newline "").
    assert (Hpath : pathname = before +:+ (if String.eqb pathname (before +:+ b) then b
                                           else b +:+ String newline "")).
    { destruct (String.eqb pathname (before +:+ b)) eqn:E.
      - now apply String.eqb_eq in E.
      - destruct Hp as [-> | ->]; [rewrite String.eqb_refl in E; discriminate |].
        apply append_assoc. }
    repeat split; [exact Hpath | exact Ha |].
    apply (wildcard_group_is_Some _ Q); [intros; apply Hk |].
    assert (HQ : forall s, contains_char newline s = false ->
                           forall s', (s' = s \/ s' = s +:+ String newline "") -> Q s').
    { intros s Hs s' Hs'. now exists s. }
    assert (Hend : (String.eqb pathname (before +:+ b) = true /\ pathname = before +:+ b)
                   \/ (String.eqb pathname (before +:+ b) = false
                       /\ pathname = (before +:+ b) +:+ String newline "")).
    { destruct (String.eqb pathname (before +:+ b)) eqn:E.
      - left. split; [reflexivity |]. now apply String.eqb_eq in E.
      - right. split; [reflexivity |].
        destruct Hp as [-> | ->]; [rewrite String.eqb_refl in E; discriminate |].
        reflexivity. }
    destruct Hb as [(s & ->) | [(s & ->) | (c & inside & s & ->)]].
    + left. simpl in Hnl.
      destruct Hend as [[-> _] | [-> _]].
      * exists s. split; [reflexivity |]. apply (HQ s Hnl). now left.
      * exists (s +:+ String newline ""). split; [now rewrite append_cons |].
        apply (HQ s Hnl). now right.
    + right. left. simpl in Hnl.
      destruct Hend as [[-> _] | [-> _]].
      * exists s. split; [reflexivity |]. apply (HQ s Hnl). now left.
      * exists (s +:+ String newline ""). split; [now rewrite append_cons |].
        apply (HQ s Hnl). now right.
    + right. right.
      change (contains_char newline (String "[" (String c inside +:+ String "]" s)))
        with (Ascii.eqb "[" newline
              || contains_char newline (String c inside +:+ String "]" s)) in Hnl.
      rewrite contains_char_append in Hnl. simpl orb in Hnl.
      apply orb_false_iff in Hnl as [Hin Hs].
      change (contains_char newline (String "]" s))
        with (Ascii.eqb "]" newline || contains_char newline s) in Hs.
      simpl orb in Hs.
      destruct Hend as [[-> _] | [-> _]].
      * exists c, inside, s. repeat split; [exact Hin |]. apply (HQ s Hs). now left.
      * exists c, inside, (s +:+ String newline "").
        repeat split;
          [now repeat (rewrite append_assoc || rewrite append_cons) | exact Hin |].
        apply (HQ s Hs). now right.
Qed.

(** ** What an include prints and registers *)


Lemma reports_weaken {A} (names names' : list string) (m : M A) :
  sublist names names' -> reports names m -> reports names' m.
Proof.
  intros Hsub H st. destruct (H st) as (Hc & unresolved & Hu & Herr).
  split; [exact Hc |]. exists unresolved. split; [| exact Herr].
  now transitivity names.
Qed.














(** ** The placeholders of a pathname *)

Lemma os_env_path_matcher_shape :
  os_env_path_matcher
  = re.Seq (re.Literal "$")
      (re.Seq (re.Literal "{")
         (re.Seq (re.Subpattern 1 (re.MaxRepeat 1 None (re.CharSet true name_ranges)))
            (re.Literal "}"))).
Proof. reflexivity. Qed.

Lemma in_name_ranges (c : ascii) : xorb true (re.in_ranges c name_ranges) = name_char c.
Proof. destruct c as [[] [] [] [] [] [] [] []]; reflexivity. Qed.

Section Values.

Context {R : Type}.
Implicit Types k : @re.continuation R.

Lemma literal_value (c : ascii) pos rest mk k (x : R) :
  re.sre_match (re.Literal c) pos rest mk k = Some x <->
  exists rest', rest = String c rest' /\ k (S pos) rest' mk = Some x.
Proof.
  simpl. destruct rest as [|a rest'].
  - split; [discriminate | intros (r & H & _); discriminate].
  - destruct (Ascii.eqb a c) eqn:E.
    + apply Ascii.eqb_eq in E. subst a. split.
      * intros H. now exists rest'.
      * intros (r & H & Hk). now injection H as <-.
    + split; [discriminate |].
      intros (r & H & _). injection H as -> _. rewrite Ascii.eqb_refl in E. discriminate.
Qed.

Lemma literal_mismatch (c a : ascii) pos rest mk k :
  Ascii.eqb a c = false -> re.sre_match (re.Literal c) pos (String a rest) mk k = None.
Proof. intros H. simpl. now rewrite H. Qed.

Lemma name_char_value pos rest mk k :
  re.sre_match (re.CharSet true name_ranges) pos rest mk k
  = match rest with
    | String a rest' => if name_char a then k (S pos) rest' mk else None
    | EmptyString => None
    end.
Proof.
  destruct rest as [|a rest']; [reflexivity |].
  change (re.sre_match (re.CharSet true name_ranges) pos (String a rest') mk k)
    with (if xorb true (re.in_ranges a name_ranges) then k (S pos) rest' mk else None).
  now rewrite in_name_ranges.
Qed.

(** The characters of a name, as many as the greedy quantifier takes: what
    a match has taken is a run of them. *)
Lemma name_run_inv (lo : N) k (x : R) :
  forall fuel count last pos rest mk,
    re.max_until (re.sre_match (re.CharSet true name_ranges)) lo None k
      fuel count last pos rest mk = Some x ->
    exists n t, rest = n +:+ t /\ all_name_chars n = true
                /\ (lo <= count + N.of_nat (String.length n))%N
                /\ k (pos + String.length n) t mk = Some x.
Proof.
  induction fuel as [|fuel IH]; intros count last pos rest mk H; [discriminate |].
  rewrite max_until_step in H.
  assert (Hbody : forall last',
    re.sre_match (re.CharSet true name_ranges) pos rest mk
      (re.max_until (re.sre_match (re.CharSet true name_ranges)) lo None k fuel
         (count + 1)%N last') = Some x ->
    exists n t, rest = n +:+ t /\ all_name_chars n = true
                /\ (lo <= count + N.of_nat (String.length n))%N
                /\ k (pos + String.length n) t mk = Some x).
  { intros last' Hb. rewrite name_char_value in Hb.
    destruct rest as [|a rest']; [discriminate |].
    destruct (name_char a) eqn:Ea; [| discriminate].
    apply IH in Hb as (n & t & -> & Hn & Hlo & Hk).
    exists (String a n), t. rewrite append_cons. simpl. rewrite Ea, Hn.
    repeat split; [lia |].
    now replace (pos + S (String.length n)) with (S pos + String.length n) by lia. }
  assert (Hstop : (count <? lo)%N = false -> k pos rest mk = Some x ->
    exists n t, rest = n +:+ t /\ all_name_chars n = true
                /\ (lo <= count + N.of_nat (String.length n))%N
                /\ k (pos + String.length n) t mk = Some x).
  { intros Hc Hk. apply N.ltb_ge in Hc. exists "", rest. rewrite append_nil_l.
    simpl. rewrite Nat.add_0_r. repeat split; [lia | exact Hk]. }
  destruct (count <? lo)%N eqn:Hc; [now apply (Hbody last) |].
  destruct (re.below count None && negb (re.same_pos last pos)); [| now apply Hstop].
  destruct (re.sre_match (re.CharSet true name_ranges) pos rest mk _) as [y |] eqn:Hb.
  - injection H as ->. now apply (Hbody (Some pos)).
  - now apply Hstop.
Qed.

(** The other way round: a run of name characters that ends before a
    character that is none is taken as a whole. *)
Lemma name_run (lo : N) k (x : R) :
  forall n fuel count last pos c t mk,
    all_name_chars n = true -> name_char c = false ->
    String.length n < fuel ->
    (lo <= count + N.of_nat (String.length n))%N ->
    match last with Some q => q < pos | None => True end ->
    k (pos + String.length n) (String c t) mk = Some x ->
    re.max_until (re.sre_match (re.CharSet true name_ranges)) lo None k
      fuel count last pos (n +:+ String c t) mk = Some x.
Proof.
  induction n as [|a n IH]; intros fuel count last pos c t mk Hn Hc Hfuel Hlo Hlast Hk;
    (destruct fuel as [|fuel]; [simpl in Hfuel; lia |]); rewrite max_until_step.
  - rewrite append_nil_l. simpl in Hlo, Hk. rewrite Nat.add_0_r in Hk.
    replace (count <? lo)%N with false by (symmetry; apply N.ltb_ge; lia).
    rewrite name_char_value, Hc.
    now destruct (re.below count None && negb (re.same_pos last pos)).
  - rewrite append_cons.
    simpl in Hn. apply andb_true_iff in Hn as [Ha Hn].
    simpl in Hfuel, Hlo, Hk.
    assert (Hnext : forall last',
              match last' with Some q => q < S pos | None => True end ->
              re.max_until (re.sre_match (re.CharSet true name_ranges)) lo None k fuel
                (count + 1)%N last' (S pos) (n +:+ String c t) mk = Some x).
    { intros last' Hl. apply IH; try assumption; [lia | lia |].
      now replace (S pos + String.length n) with (pos + S (String.length n)) by lia. }
    destruct (count <? lo)%N.
    + rewrite name_char_value, Ha. apply Hnext. destruct last; [lia | exact I].
    + assert (Hsame : re.same_pos last pos = false).
      { destruct last as [q |]; [| reflexivity]. simpl. apply Nat.eqb_neq. lia. }
      rewrite Hsame. change (re.below count None && negb false) with true. cbv iota.
      rewrite name_char_value, Ha. rewrite Hnext; [reflexivity | lia].
Qed.

End Values.

Lemma substring_prefix (a b : string) :
  String.substring 0 (String.length a) (a +:+ b) = a.
Proof.
  induction a as [|c a IH]; [rewrite append_nil_l; apply substring_nothing |].
  rewrite append_cons. simpl. now rewrite IH.
Qed.

Lemma placeholder_text (name rest : string) :
  "${" +:+ name +:+ "}" +:+ rest = String "$" (String "{" (name +:+ String "}" rest)).
Proof. now rewrite !append_cons, !append_nil_l. Qed.

(** A match of [os_env_path_matcher]: the text starts with a dollar, a
    brace, a name and a brace, and the group is the name. *)
Lemma placeholder_match_inv (pos : nat) (rest : string) (must_advance : bool)
    (e : nat) (rest_e : string) (mk : re.marks) :
  re.match_at os_env_path_matcher pos rest must_advance = Some (e, rest_e, mk) ->
  exists name,
    rest = "${" +:+ name +:+ "}" +:+ rest_e
    /\ name <> "" /\ all_name_chars name = true
    /\ mk = [(1, name)] /\ e = pos + String.length name + 3.
Proof.
  unfold re.match_at. rewrite os_env_path_matcher_shape, sre_match_Seq.
  intros H. apply literal_value in H as (r1 & -> & H).
  rewrite sre_match_Seq in H. apply literal_value in H as (r2 & -> & H).
  rewrite sre_match_Seq, sre_match_Subpattern, sre_match_MaxRepeat in H.
  apply name_run_inv in H as (n & t & -> & Hn & Hlo & H).
  apply literal_value in H as (r3 & -> & H).
  replace (S (S pos) + String.length n - S (S pos)) with (String.length n) in H by lia.
  rewrite substring_prefix in H.
  destruct (must_advance && Nat.eqb _ pos); [discriminate |].
  injection H as <- <- <-. exists n.
  rewrite placeholder_text. repeat split; [| exact Hn | lia].
  intros ->. simpl in Hlo. lia.
Qed.

Lemma placeholder_match (pos : nat) (name rest : string) (must_advance : bool) :
  name <> "" -> all_name_chars name = true ->
  re.match_at os_env_path_matcher pos ("${" +:+ name +:+ "}" +:+ rest) must_advance
  = Some (pos + String.length name + 3, rest, [(1, name)]).
Proof.
  intros Hne Hn. unfold re.match_at.
  rewrite os_env_path_matcher_shape, sre_match_Seq, placeholder_text.
  apply literal_value. eexists. split; [reflexivity |].
  rewrite sre_match_Seq. apply literal_value. eexists. split; [reflexivity |].
  rewrite sre_match_Seq, sre_match_Subpattern, sre_match_MaxRepeat.
  apply name_run; [exact Hn | reflexivity | | | exact I |].
  - rewrite length_append. simpl. lia.
  - destruct name; [contradiction | simpl; lia].
  - apply literal_value. eexists. split; [reflexivity |].
    replace (S (S pos) + String.length name - S (S pos)) with (String.length name) by lia.
    rewrite substring_prefix.
    replace (Nat.eqb (S (S (S pos) + String.length name)) pos) with false
      by (symmetry; apply Nat.eqb_neq; lia).
    rewrite andb_false_r. f_equal. f_equal. f_equal. lia.
Qed.

Lemma no_match_without_dollar (pos : nat) (rest : string) (must_advance : bool) :
  match rest with String c _ => Ascii.eqb c "$" = false | EmptyString => True end ->
  re.match_at os_env_path_matcher pos rest must_advance = None.
Proof.
  intros H. unfold re.match_at. rewrite os_env_path_matcher_shape, sre_match_Seq.
  destruct rest as [|c rest]; [reflexivity |]. now apply literal_mismatch.
Qed.

Lemma search_step (r : re.regex) (pos : nat) (rest : string) (must_advance : bool) :
  re.search r pos rest must_advance
  = match re.match_at r pos rest must_advance with
    | Some found => Some (pos, rest, found)
    | None =>
        match rest with
        | EmptyString => None
        | String _ rest' => re.search r (S pos) rest' false
        end
    end.
Proof. now destruct rest. Qed.

Lemma search_without_dollar (rest : string) :
  contains_char "$" rest = false ->
  forall pos must_advance, re.search os_env_path_matcher pos rest must_advance = None.
Proof.
  induction rest as [|c rest IH]; intros H pos must_advance; rewrite search_step.
  - now rewrite no_match_without_dollar.
  - simpl in H. apply orb_false_iff in H as [Hc H].
    rewrite no_match_without_dollar by exact Hc. now apply IH.
Qed.

Lemma search_skips (a rest : string) (found : nat * string * re.marks) :
  contains_char "$" a = false ->
  (forall pos must_advance,
     re.match_at os_env_path_matcher pos rest must_advance
     = Some (pos + fst (fst found), snd (fst found), snd found)) ->
  forall pos must_advance,
    re.search os_env_path_matcher pos (a +:+ rest) must_advance
    = Some (pos + String.length a, rest,
            (pos + String.length a + fst (fst found), snd (fst found), snd found)).
Proof.
  intros Ha Hm. induction a as [|c a IH]; intros pos must_advance.
  - rewrite append_nil_l, search_step, Hm. simpl. now rewrite Nat.add_0_r.
  - rewrite append_cons. simpl in Ha. apply orb_false_iff in Ha as [Hc Ha].
    rewrite search_step, no_match_without_dollar by exact Hc. rewrite IH by exact Ha.
    now replace (S pos + String.length a) with (pos + S (String.length a)) by lia.
Qed.

(** What [search] finds is a match in what is left of the text. *)
Lemma search_inv (r : re.regex) (rest : string) :
  forall pos must_advance b rest_b found,
    re.search r pos rest must_advance = Some (b, rest_b, found) ->
    exists skipped must_advance',
      rest = skipped +:+ rest_b
      /\ re.match_at r b rest_b must_advance' = Some found.
Proof.
  induction rest as [|c rest IH]; intros pos must_advance b rest_b found H;
    rewrite search_step in H.
  - destruct (re.match_at r pos "" must_advance) as [f |] eqn:E; [| discriminate].
    injection H as <- <- <-. exists "", must_advance. now rewrite append_nil_l.
  - destruct (re.match_at r pos (String c rest) must_advance) as [f |] eqn:E.
    + injection H as <- <- <-. exists "", must_advance. now rewrite append_nil_l.
    + apply IH in H as (skipped & ma & -> & H).
      exists (String c skipped), ma. now rewrite append_cons.
Qed.

Lemma findall_from_sound (fuel : nat) :
  forall pos rest must_advance name,
    In name (re.findall_from fuel os_env_path_matcher pos rest must_advance) ->
    name <> "" /\ all_name_chars name = true
    /\ exists before after, rest = before +:+ "${" +:+ name +:+ "}" +:+ after.
Proof.
  induction fuel as [|fuel IH]; intros pos rest must_advance name H; [destruct H |].
  simpl in H.
  destruct (re.search os_env_path_matcher pos rest must_advance)
    as [[[b rest_b] [[e rest_e] mk]] |] eqn:E; [| destruct H].
  apply search_inv in E as (skipped & ma & -> & E).
  apply placeholder_match_inv in E as (found & -> & Hne & Hn & -> & ->).
  destruct H as [<- | H].
  - simpl. repeat split; [exact Hne | exact Hn |]. now exists skipped, rest_e.
  - apply IH in H as (Hne' & Hn' & before & after & ->).
    repeat split; [exact Hne' | exact Hn' |].
    exists (skipped +:+ "${" +:+ found +:+ "}" +:+ before), after.
    now repeat (rewrite append_assoc || rewrite append_cons || rewrite append_nil_l).
Qed.

(** X10: every name that the substitution takes from a pathname stands in
    it between [${] and [}]; it is not empty and holds no brace and no
    caret. *)
Theorem placeholders_are_in_the_pathname (pathname name : string) :
  In name (placeholder_names (VStr pathname)) ->
  re_findall os_env_path_matcher (VStr pathname) = Ok (placeholder_names (VStr pathname))
  /\ name <> "" /\ all_name_chars name = true
  /\ exists before after, pathname = before +:+ "${" +:+ name +:+ "}" +:+ after.
Proof.
  intros H. split; [reflexivity |]. exact (findall_from_sound _ _ _ _ _ H).
Qed.

Lemma placeholders_are_in_the_pathname_witness :
  name_char "O" = true
  /\ exists before after, "cfg/${FOO}.yaml" = before +:+ "${" +:+ "FOO" +:+ "}" +:+ after.
Proof.
  split; [reflexivity |].
  apply (placeholders_are_in_the_pathname "cfg/${FOO}.yaml" "FOO").
  left. reflexivity.
Defined.

Lemma findall_without_dollar (s : string) :
  contains_char "$" s = false -> re.findall os_env_path_matcher s = [].
Proof.
  intros H. unfold re.findall.
  replace (2 * String.length s + 2) with (S (2 * String.length s + 1)) by lia.
  simpl re.findall_from. now rewrite search_without_dollar.
Qed.

(** X11: a pathname without dollar is left as it is by the substitution,
    whatever the environment and the configuration hold, as long as
    [config], when it is set, is parsed. *)
Theorem pathname_without_dollar_is_unchanged (w : World) (pathname : string) (st : State) :
  contains_char "$" pathname = false ->
  (forall raw, environ w !! "config" = Some raw ->
               exists cfg, yaml_load w (TextStream raw) (FullLoader w) = Ok cfg) ->
  substitute_variables w (VStr pathname) st = (Ok (VStr pathname), st).
Proof.
  intros Hd Hcfg.
  destruct (environ w !! "config") as [raw |] eqn:E;
    [| now apply substitute_variables_without_config].
  destruct (Hcfg raw eq_refl) as [cfg Hparse].
  unfold substitute_variables, try_except_KeyError, bind, lift, environ_getitem, re_findall.
  rewrite E, Hparse, findall_without_dollar by exact Hd. reflexivity.
Qed.

Lemma pathname_without_dollar_is_unchanged_witness :
  substitute_variables (example_world env_config) (VStr "conf/a.yml") registered_state
  = (Ok (VStr "conf/a.yml"), registered_state).
Proof.
  apply pathname_without_dollar_is_unchanged; [reflexivity |].
  intros raw H. vm_compute in H. injection H as <-. eexists. reflexivity.
Defined.

Lemma findall_single (a name b : string) :
  contains_char "$" a = false -> contains_char "$" b = false ->
  name <> "" -> all_name_chars name = true ->
  re.findall os_env_path_matcher (a +:+ "${" +:+ name +:+ "}" +:+ b) = [name].
Proof.
  intros Ha Hb Hne Hn. unfold re.findall.
  set (s := a +:+ "${" +:+ name +:+ "}" +:+ b).
  replace (2 * String.length s + 2) with (S (S (2 * String.length s))) by lia.
  unfold s. clear s.
  change (re.findall_from (S (S ?f)) ?r ?p ?t ?m)
    with (match re.search r p t m with
          | None => []
          | Some (b0, _, (e, rest_e, mk)) =>
              re.group_text 1 mk :: re.findall_from (S f) r e rest_e (Nat.eqb e b0)
          end).
  rewrite (search_skips a _ (String.length name + 3, b, [(1, name)]) Ha).
  - simpl fst. simpl snd. simpl re.group_text. f_equal.
    simpl re.findall_from. now rewrite search_without_dollar.
  - intros pos must_advance. simpl fst. simpl snd.
    rewrite placeholder_match by assumption. f_equal. f_equal. f_equal. lia.
Qed.

Lemma replace_skipping_without (old new s : string) (c : ascii) (rest : string) :
  old = String c rest -> contains_char c s = false ->
  replace_skipping old new 0 s = s.
Proof.
  intros -> H. induction s as [|a s IH]; [reflexivity |].
  simpl in H. apply orb_false_iff in H as [Ha H].
  rewrite replace_skipping_cons, prefix_cons, Ha. simpl. now rewrite IH.
Qed.

Lemma replace_skipping_before (old new a s : string) (c : ascii) (rest : string) :
  old = String c rest -> contains_char c a = false ->
  replace_skipping old new 0 (a +:+ s) = a +:+ replace_skipping old new 0 s.
Proof.
  intros -> H. induction a as [|x a IH]; [now rewrite !append_nil_l |].
  simpl in H. apply orb_false_iff in H as [Hx H].
  rewrite !append_cons, replace_skipping_cons, prefix_cons, Hx. simpl. now rewrite IH.
Qed.

Lemma replace_single (name v a b : string) :
  contains_char "$" a = false -> contains_char "$" b = false ->
  replace ("${" +:+ name +:+ "}") v (a +:+ "${" +:+ name +:+ "}" +:+ b) = a +:+ v +:+ b.
Proof.
  intros Ha Hb. unfold replace.
  assert (Hold : "${" +:+ name +:+ "}" = String "$" (String "{" (name +:+ "}"))).
  { now rewrite !append_cons, append_nil_l. }
  rewrite (replace_skipping_before _ _ a _ "$" _ Hold Ha). f_equal.
  replace ("${" +:+ name +:+ "}" +:+ b) with (("${" +:+ name +:+ "}") +:+ b)
    by now repeat (rewrite append_assoc || rewrite append_cons || rewrite append_nil_l).
  rewrite replace_skipping_match by (rewrite Hold; discriminate). f_equal.
  exact (replace_skipping_without _ _ b "$" _ Hold Hb).
Qed.

(** X9: with [config] set and parsed, a pathname with one placeholder, whose
    name holds no character that is special in a pattern, comes out of the
    substitution with the value of the variable in the place of the
    placeholder and the rest as it was. *)
Theorem single_placeholder_is_substituted (w : World) (raw : string) (cfg aValue : value)
    (a name b : string) (st st' : State) :
  environ w !! "config" = Some raw ->
  yaml_load w (TextStream raw) (FullLoader w) = Ok cfg ->
  contains_char "$" a = false -> contains_char "$" b = false ->
  name <> "" -> all_name_chars name = true ->
  all_plain name = true -> re.read_bounds (name +:+ "}") = None ->
  variable_value w cfg name st = (Ok aValue, st') ->
  contains_char backslash (str aValue) = false ->
  substitute_variables w (VStr (a +:+ "${" +:+ name +:+ "}" +:+ b)) st
  = (Ok (VStr (a +:+ str aValue +:+ b)), st').
Proof.
  intros Hconfig Hparse Ha Hb Hne Hn Hplain Hbounds Hvalue Hrepl.
  unfold substitute_variables, try_except_KeyError.
  unfold bind at 1, lift at 1, environ_getitem. rewrite Hconfig.
  unfold bind at 1, lift at 1. rewrite Hparse.
  unfold bind at 1, lift at 1, re_findall. rewrite findall_single by assumption.
  simpl for_each. unfold bind at 1.
  rewrite (substitute_variable_value w cfg _ aValue name st st' Hvalue).
  unfold replace_variable. simpl str at 2.
  rewrite plain_name_is_replaced_literally by assumption.
  now rewrite replace_single by assumption.
Qed.

Lemma single_placeholder_is_substituted_witness :
  substitute_variables (example_world env_config) (VStr "cfg/${FOO}.yaml") registered_state
  = (Ok (VStr "cfg/bar.yaml"), registered_state).
Proof.
  apply (single_placeholder_is_substituted (example_world env_config) example_config
           (VDict [(VStr "db", VDict [(VStr "host", VStr "localhost")]);
                   (VStr "db_host", VStr "other")])
           (VStr "bar") "cfg/" "FOO" ".yaml" registered_state registered_state);
    try reflexivity.
  discriminate.
Defined.

(** ** Names with dots *)

Lemma rev_app_rev_app (a b c : string) :
  String.rev_app (String.rev_app a b) c = String.rev_app b (a +:+ c).
Proof.
  revert b. induction a as [|x a IH]; intros b; simpl.
  - now rewrite append_nil_l.
  - rewrite IH. simpl. now rewrite append_cons.
Qed.

Lemma rev_rev_app (a : string) : String.rev (String.rev_app a "") = a.
Proof. unfold String.rev. rewrite rev_app_rev_app. simpl. apply append_nil_r. Qed.

Lemma split_aux_key (sep : ascii) (key rest cur : string) :
  contains_char sep key = false ->
  split_aux sep (key +:+ rest) cur = split_aux sep rest (String.rev_app key cur).
Proof.
  revert cur. induction key as [|c key IH]; intros cur H.
  - now rewrite append_nil_l.
  - simpl in H. apply orb_false_iff in H as [Hc H].
    rewrite append_cons. simpl. rewrite Hc. now rewrite IH.
Qed.

(** Splitting at the dots gives back the keys that were joined with dots. *)
Lemma split_join_dots (keys : list string) :
  keys <> [] -> Forall (fun key => contains_char "." key = false) keys ->
  str_split "." (join_dots keys) = keys.
Proof.
  intros Hne Hall. unfold str_split.
  induction Hall as [|key keys Hkey Hall IH]; [contradiction |].
  destruct keys as [|key' keys].
  - simpl join_dots. rewrite <- (append_nil_r key) at 1.
    rewrite split_aux_key by exact Hkey. simpl. now rewrite rev_rev_app.
  - change (join_dots (key :: key' :: keys))
      with (key +:+ "." +:+ join_dots (key' :: keys)).
    rewrite split_aux_key by exact Hkey. rewrite append_cons, append_nil_l.
    simpl split_aux. rewrite rev_rev_app. f_equal. now apply IH.
Qed.

Lemma lookup_keys_reaches (keys : list string) :
  forall v x, reaches v keys x -> lookup_keys v keys = Ok x.
Proof.
  unfold lookup_keys. induction keys as [|key keys IH]; intros v x H; simpl in *.
  - now subst.
  - destruct H as (items & next & -> & Hget & H). simpl. rewrite Hget. simpl.
    now apply IH.
Qed.

Lemma lookup_keys_app (keys1 keys2 : list string) :
  forall v x, reaches v keys1 x -> lookup_keys v (keys1 ++ keys2) = lookup_keys x keys2.
Proof.
  unfold lookup_keys. induction keys1 as [|key keys1 IH]; intros v x H; simpl in *.
  - now subst.
  - destruct H as (items & next & -> & Hget & H). simpl. rewrite Hget. simpl.
    now apply IH.
Qed.

(** X12: a name with dots is looked up in the configuration key after key
    when the environment has no variable of this name.  When every key is
    found, the value is the one reached; when a mapping on the way lacks
    its key, a line is printed and the value is the empty string; when a
    value on the way is no mapping, [TypeError] is raised and nothing is
    printed. *)
Theorem dotted_name_lookup (w : World) (cfg : value) (keys : list string) (st : State) :
  keys <> [] -> Forall (fun key => contains_char "." key = false) keys ->
  environ w !! join_dots keys = None ->
  (forall x, reaches cfg keys x ->
             variable_value w cfg (join_dots keys) st = (Ok x, st))
  /\ (forall found key rest items,
        keys = (found ++ key :: rest)%list ->
        reaches cfg found (VDict items) -> dict_get items key = None ->
        variable_value w cfg (join_dots keys) st
        = (Ok (VStr ""),
           {| objects := objects st;
              yaml_constructors := yaml_constructors st;
              stderr := stderr st ++ [no_value_line (join_dots keys)] |}))
  /\ (forall found key rest x,
        keys = (found ++ key :: rest)%list ->
        reaches cfg found x -> (forall items, x <> VDict items) ->
        variable_value w cfg (join_dots keys) st = (Raise TypeError, st)).
Proof.
  intros Hne Hall Henv. rewrite variable_value_config by exact Henv.
  rewrite split_join_dots by assumption. repeat split.
  - intros x H. now rewrite (lookup_keys_reaches keys cfg x H).
  - intros found key rest items -> H Hget.
    rewrite (lookup_keys_app found (key :: rest) cfg _ H).
    unfold lookup_keys. simpl. now rewrite Hget.
  - intros found key rest x -> H Hx.
    rewrite (lookup_keys_app found (key :: rest) cfg _ H).
    unfold lookup_keys. simpl. destruct x; try reflexivity.
    match type of Hx with forall items, VDict ?i <> _ => now destruct (Hx i) end.
Qed.

Lemma dotted_name_lookup_witness :
  variable_value (example_world env_config)
    (VDict [(VStr "db", VDict [(VStr "host", VStr "localhost")]);
            (VStr "db_host", VStr "other")])
    "db.host" registered_state
  = (Ok (VStr "localhost"), registered_state).
Proof.
  apply (proj1 (dotted_name_lookup (example_world env_config)
                  (VDict [(VStr "db", VDict [(VStr "host", VStr "localhost")]);
                          (VStr "db_host", VStr "other")])
                  ["db"; "host"] registered_state
                  ltac:(discriminate) ltac:(repeat constructor) eq_refl)).
  simpl. eexists _, _. split; [reflexivity |]. split; [reflexivity |].
  eexists _, _. split; [reflexivity |]. split; reflexivity.
Defined.
